(** * dem2ticks: alive-range extraction and per-tick frame assembly

    A shallow embedding of [src/dem2ticks.py].  The demo parser is an
    external collaborator: it is modelled as a record holding the tables
    and per-(player, tick) queries the program asks it for.  Integers are
    [Z]; where the program subtracts from a numpy int64 (an element read
    from an Index) the 64-bit wrap-around is written out.  Exceptions are
    an explicit [result] type. *)

From Stdlib Require Import ZArith List Lia QArith Qround.
From stdpp Require Import base tactics option list numbers strings sorting.
From stdpp Require Import gmap pretty.

Local Open Scope Z_scope.

(** ** Exceptions and the error monad *)

Inductive exn : Type :=
  | ValueError_not_found (tick steamid : Z)
      (* raise ValueError(f"未在tick {tick}找到steamid为{steamid}的玩家数据") *)
  | ValueError_int_conversion
      (* int() applied to a float nan *)
  | OverflowError_int_conversion
      (* int() applied to a float infinity *)
  | TypeError_takes_no_arguments
      (* a class without __init__ called with arguments *)
  | IndexError.
      (* positional access [-1] on an empty index *)

Inductive result (A : Type) : Type :=
  | Ok (a : A)
  | Raise (e : exn).
Arguments Ok {A} a.
Arguments Raise {A} e.

Definition bind {A B} (m : result A) (k : A → result B) : result B :=
  match m with
  | Ok a => k a
  | Raise e => Raise e
  end.

Notation "'do' x <- m ; k" := (bind m (λ x, k))
  (at level 10, x name, m at level 100, k at level 200).

Definition is_Ok {A} (m : result A) : Prop := ∃ a, m = Ok a.

(** ** Floating-point values

    [game_time], [round_start_time] and the mouse deltas are floats.  The
    program only subtracts two of them and applies [int()] to the
    difference, so a float type is anything with a subtraction and a
    classification: a float is nan, an infinity, or finite, standing for a
    rational. *)

Inductive float_class : Type :=
  | Finite (q : Q)
  | NaN
  | Infinite.

Class PyFloat (F : Type) := {
  fsub : F → F → F;
  fclass : F → float_class
}.

(** Truncation toward zero, the rounding of Python's [int()]. *)
Definition Qtrunc (q : Q) : Z :=
  if Qle_bool 0 q then Qfloor q else Qceiling q.

(** [int(x)] for a float [x]: ValueError for nan, OverflowError for an
    infinity. *)
Definition py_int {F} `{PyFloat F} (x : F) : result Z :=
  match fclass x with
  | Finite q => Ok (Qtrunc q)
  | NaN => Raise ValueError_int_conversion
  | Infinite => Raise OverflowError_int_conversion
  end.

(** Rationals with exact subtraction: the floats of the examples below,
    whose values and differences are small multiples of 1/4 and so are
    subtracted without rounding.  It is not a model of rounding. *)
#[export] Instance PyFloat_Q : PyFloat Q := {
  fsub := Qminus;
  fclass := Finite
}.

(** The value a numpy int64 operation keeps of the exact result [z]: the
    result modulo 2^64, in the range of a signed 64-bit integer. *)
Definition int64_wrap (z : Z) : Z :=
  (z + 2 ^ 63) mod 2 ^ 64 - 2 ^ 63.

(** [range(start, stop)] *)
Definition py_range (start stop : Z) : list Z := seqZ start (stop - start).

(** [index[-1]] *)
Definition index_last (index : list Z) : result Z :=
  match last index with
  | Some i => Ok i
  | None => Raise IndexError
  end.

(** ** The demo parser

    One record per query shape the program issues.  A row of a DataFrame
    carries its index label; [iterrows()] yields that label as [tick]. *)

(** A row of [parse_ticks(["is_alive", "player_steamid", "game_time"])];
    [game_time] is requested but never read. *)
Record TickRow : Type := {
  tr_index : Z;
  tr_player_steamid : Z;
  tr_is_alive : bool
}.

(** A row of the action query of [get_player_action]. *)
Record ActionRow (F : Type) : Type := {
  ar_player_steamid : Z;
  FORWARD : bool; LEFT : bool; RIGHT : bool; BACK : bool;
  ar_team_num : Z;
  WALK : bool; USE : bool; INSPECT : bool;
  usercmd_mouse_dx : F; usercmd_mouse_dy : F;
  FIRE : bool; RIGHTCLICK : bool; RELOAD : bool;
  ar_active_weapon : Z;
  old_jump_pressed : bool; in_crouch : bool; ducked : bool;
  ducking : bool; in_duck_jump : bool
}.
Arguments ar_player_steamid {F}. Arguments FORWARD {F}. Arguments LEFT {F}.
Arguments RIGHT {F}. Arguments BACK {F}. Arguments ar_team_num {F}.
Arguments WALK {F}. Arguments USE {F}. Arguments INSPECT {F}.
Arguments usercmd_mouse_dx {F}. Arguments usercmd_mouse_dy {F}.
Arguments FIRE {F}. Arguments RIGHTCLICK {F}. Arguments RELOAD {F}.
Arguments ar_active_weapon {F}. Arguments old_jump_pressed {F}.
Arguments in_crouch {F}. Arguments ducked {F}. Arguments ducking {F}.
Arguments in_duck_jump {F}.

(** A row of the status query of [get_player_info]. *)
Record InfoRow (F : Type) : Type := {
  health : Z;
  ir_team_num : Z;
  ir_active_weapon : Z;
  total_rounds_played : Z;
  armor_value : Z;
  balance : Z;
  ir_player_name : string;
  ir_player_steamid : Z;
  round_start_time : F;
  game_time : F
}.
Arguments health {F}. Arguments ir_team_num {F}. Arguments ir_active_weapon {F}.
Arguments total_rounds_played {F}. Arguments armor_value {F}.
Arguments balance {F}. Arguments ir_player_name {F}.
Arguments ir_player_steamid {F}. Arguments round_start_time {F}.
Arguments game_time {F}.

Record DemoParser (F : Type) : Type := {
  (* parse_ticks(["is_alive", "player_steamid", "game_time"]) *)
  parse_ticks_alive : list TickRow;
  (* parse_event("round_end").index *)
  parse_event_round_end : list Z;
  (* parse_ticks(<action fields>, players=[steamid], ticks=[tick]) *)
  parse_ticks_action : Z → Z → list (ActionRow F);
  (* parse_ticks(<status fields>, players=[steamid], ticks=[tick]) *)
  parse_ticks_info : Z → Z → list (InfoRow F)
}.
Arguments parse_ticks_alive {F}. Arguments parse_event_round_end {F}.
Arguments parse_ticks_action {F}. Arguments parse_ticks_info {F}.

(** ** DemoPOVs.get_player_alive_ranges *)

Module DemoPOVs.

(** The three locals the loop updates.  An element read from an Index
    ([round_end_ticks[0]], [index[-1]]) is a numpy int64, the [tick] that
    [iterrows()] yields is a Python int; both are integers, but [end - start]
    on line 61 is computed in 64 bits when [end] is a numpy int64.
    [end_is_int64] records, for each tuple of [alive_ranges] in order,
    whether its end is a numpy int64. *)
Record loop_state : Type := {
  alive_ranges : list (Z * Z);
  end_is_int64 : list bool;
  start_tick : option Z;
  last_round_end_tick : Z
}.

Definition init_state : loop_state :=
  {| alive_ranges := []; end_is_int64 := [];
     start_tick := None; last_round_end_tick := 0 |}.

(** [round_end_df[round_end_df.index > last_round_end_tick].index] *)
Definition round_end_ticks (round_end_df : list Z) (last : Z) : list Z :=
  List.filter (λ t, last <? t) round_end_df.

(** Lines 41-46: the round-boundary check. *)
Definition check_round_end (round_end_df : list Z) (tick : Z)
    (st : loop_state) : loop_state :=
  match round_end_ticks round_end_df (last_round_end_tick st) with
  | m :: _ =>
      if m <? tick then
        {| alive_ranges :=
             match start_tick st with
             | Some s => alive_ranges st ++ [(s, m)]
             | None => alive_ranges st
             end;
           end_is_int64 :=
             match start_tick st with
             | Some s => end_is_int64 st ++ [true]
             | None => end_is_int64 st
             end;
           start_tick := None;
           last_round_end_tick := m |}
      else st
  | [] => st
  end.

(** Lines 48-52: the liveliness transition. *)
Definition check_alive (tick : Z) (is_alive : bool)
    (st : loop_state) : loop_state :=
  match is_alive, start_tick st with
  | true, None =>
      {| alive_ranges := alive_ranges st;
         end_is_int64 := end_is_int64 st;
         start_tick := Some tick;
         last_round_end_tick := last_round_end_tick st |}
  | false, Some s =>
      {| alive_ranges := alive_ranges st ++ [(s, tick - 1)];
         end_is_int64 := end_is_int64 st ++ [false];
         start_tick := None;
         last_round_end_tick := last_round_end_tick st |}
  | _, _ => st
  end.

(** One iteration of [for tick, row in player_data.iterrows()]. *)
Definition loop_body (round_end_df : list Z) (st : loop_state)
    (row : TickRow) : loop_state :=
  check_alive (tr_index row) (tr_is_alive row)
    (check_round_end round_end_df (tr_index row) st).

(** [ticks_df[ticks_df['player_steamid'] == target_steamid]] *)
Definition player_data_of (ticks_df : list TickRow) (target_steamid : Z)
    : list TickRow :=
  List.filter (λ r, tr_player_steamid r =? target_steamid) ticks_df.

Definition run_loop (round_end_df : list Z) (player_data : list TickRow)
    : loop_state :=
  fold_left (loop_body round_end_df) player_data init_state.

(** Lines 55-57: the range still open after the pass. *)
Definition close_last (round_end_df : list Z) (player_data : list TickRow)
    (st : loop_state) : result (list (Z * Z)) :=
  match start_tick st with
  | Some s =>
      do last_round_end <-
        match round_end_df with
        | _ :: _ => index_last round_end_df
        | [] => index_last (map tr_index player_data)
        end ;
      Ok (alive_ranges st ++ [(s, last_round_end)])
  | None => Ok (alive_ranges st)
  end.

(** The kinds of the ends of the list [close_last] returns: the end
    appended by line 57 is [index[-1]], a numpy int64. *)
Definition close_last_kinds (st : loop_state) : list bool :=
  match start_tick st with
  | Some _ => end_is_int64 st ++ [true]
  | None => end_is_int64 st
  end.

Definition MAX_LEN : Z := 128 * (55 + 60 + 15 + 15 + 45).

(** [end - start] on line 61: exact for a Python int [end], computed in 64
    bits for a numpy int64 [end]. *)
Definition end_minus_start (range : Z * Z) (int64_end : bool) : Z :=
  let '(start, end_) := range in
  if int64_end then int64_wrap (end_ - start) else end_ - start.

(** Line 61: the comprehension that drops over-long ranges. *)
Definition within_max_len (ranges : list (Z * Z)) (kinds : list bool)
    : list (Z * Z) :=
  map fst
    (List.filter (λ '(range, int64_end),
                    end_minus_start range int64_end <? MAX_LEN)
       (combine ranges kinds)).

(** [alive_ranges] as it stands just before line 59. *)
Definition collected_alive_ranges {F} (parser : DemoParser F)
    (target_steamid : Z) : result (list (Z * Z)) :=
  let ticks_df := parse_ticks_alive parser in
  let round_end_df := parse_event_round_end parser in
  let player_data := player_data_of ticks_df target_steamid in
  close_last round_end_df player_data (run_loop round_end_df player_data).

(** The kinds of the ends of [collected_alive_ranges]. *)
Definition collected_kinds {F} (parser : DemoParser F)
    (target_steamid : Z) : list bool :=
  let round_end_df := parse_event_round_end parser in
  let player_data :=
    player_data_of (parse_ticks_alive parser) target_steamid in
  close_last_kinds (run_loop round_end_df player_data).

Definition get_player_alive_ranges {F} (parser : DemoParser F)
    (target_steamid : Z) : result (list (Z * Z)) :=
  do ranges <- collected_alive_ranges parser target_steamid ;
  Ok (within_max_len ranges (collected_kinds parser target_steamid)).

End DemoPOVs.

(** ** PlayerActionFrame *)

Module PlayerActionFrame.

(** The keyword arguments of the call on lines 102-117. *)
Record t (F : Type) : Type := {
  wasd : list Z;
  team : Z;
  walk : Z;
  use : Z;
  inspect : Z;
  dx : F;
  dy : F;
  attack : Z;
  l_attack : Z;
  reload : Z;
  select : Z;
  jump : Z;
  crouch : Z;
  tick : Z
}.
Arguments wasd {F}. Arguments team {F}. Arguments walk {F}.
Arguments use {F}. Arguments inspect {F}. Arguments dx {F}.
Arguments dy {F}. Arguments attack {F}. Arguments l_attack {F}.
Arguments reload {F}. Arguments select {F}. Arguments jump {F}.
Arguments crouch {F}. Arguments tick {F}.

(** Lines 91-117, for the row [tick_data.iloc[0]]: the arguments. *)
Definition of_row {F} (player_action : ActionRow F) (tick_ : Z) : t F :=
  let wasd_ :=
    [ Z.b2z (FORWARD player_action);
      Z.b2z (LEFT player_action);
      Z.b2z (BACK player_action);
      Z.b2z (RIGHT player_action) ] in
  let jump_ :=
    Z.b2z (old_jump_pressed player_action || in_duck_jump player_action) in
  let crouch_ :=
    Z.b2z (in_crouch player_action || ducked player_action
           || ducking player_action) in
  {| wasd := wasd_;
     team := ar_team_num player_action;
     walk := Z.b2z (WALK player_action);
     use := Z.b2z (USE player_action);
     inspect := Z.b2z (INSPECT player_action);
     dx := usercmd_mouse_dx player_action;
     dy := usercmd_mouse_dy player_action;
     attack := Z.b2z (FIRE player_action);
     l_attack := Z.b2z (RIGHTCLICK player_action);
     reload := Z.b2z (RELOAD player_action);
     select := ar_active_weapon player_action;
     jump := jump_;
     crouch := crouch_;
     tick := tick_ |}.

(** [PlayerActionFrame(wasd=..., ...)]: the class defines no [__init__]
    (lines 64-117 hold the static method only), so the call with arguments
    raises TypeError after the arguments are evaluated. *)
Definition new {F} (kwargs : t F) : result (t F) :=
  Raise TypeError_takes_no_arguments.

Definition get_player_action {F} (parser : DemoParser F)
    (steamid tick_ : Z) : result (t F) :=
  match parse_ticks_action parser steamid tick_ with
  | [] => Raise (ValueError_not_found tick_ steamid)
  | player_action :: _ => new (of_row player_action tick_)
  end.

End PlayerActionFrame.

(** ** PlayerInfoFrame *)

Module PlayerInfoFrame.

Record t : Type := {
  tick : Z;
  pic_path : option string;
  hp : Z;
  team : Z;
  weapon : Z;
  round : Z;
  time : Z;
  armor : Z;
  money : Z;
  player_name : string;
  steamid : Z
}.

(** Lines 161-177, for the row [tick_data.iloc[0]]. *)
Definition of_row {F} `{PyFloat F} (player_info : InfoRow F) (tick_ : Z)
    : result t :=
  let round_time := fsub (game_time player_info)
                         (round_start_time player_info) in
  do time_ <- py_int round_time ;
  Ok {| tick := tick_;
        pic_path := None;
        hp := health player_info;
        team := ir_team_num player_info;
        weapon := ir_active_weapon player_info;
        round := total_rounds_played player_info;
        time := time_;
        armor := armor_value player_info;
        money := balance player_info;
        player_name := ir_player_name player_info;
        steamid := ir_player_steamid player_info |}.

Definition get_player_info {F} `{PyFloat F} (parser : DemoParser F)
    (steamid_ tick_ : Z) : result t :=
  match parse_ticks_info parser steamid_ tick_ with
  | [] => Raise (ValueError_not_found tick_ steamid_)
  | player_info :: _ => of_row player_info tick_
  end.

End PlayerInfoFrame.

(** ** PlayerFrame *)

Module PlayerFrame.

Record t (F : Type) : Type := {
  tick : Z;
  player_info : PlayerInfoFrame.t;
  player_action : PlayerActionFrame.t F
}.
Arguments tick {F}. Arguments player_info {F}. Arguments player_action {F}.

(** [PlayerFrame(parser, steamid, tick)] *)
Definition new {F} `{PyFloat F} (parser : DemoParser F)
    (steamid tick_ : Z) : result (t F) :=
  do info <- PlayerInfoFrame.get_player_info parser steamid tick_ ;
  do action <- PlayerActionFrame.get_player_action parser steamid tick_ ;
  Ok {| tick := tick_; player_info := info; player_action := action |}.

End PlayerFrame.

(** ** PlayerRoundFrames *)

Module PlayerRoundFrames.

Record t (F : Type) : Type := {
  start_tick : Z;
  end_tick : Z;
  steamid : Z;
  player_frames : list (PlayerFrame.t F)
}.
Arguments start_tick {F}. Arguments end_tick {F}. Arguments steamid {F}.
Arguments player_frames {F}.

(** The loop of [_build_player_frames]: each frame is appended to the
    list built so far; an exception leaves the loop at once. *)
Fixpoint build_loop {F} `{PyFloat F} (parser : DemoParser F)
    (steamid_ : Z) (ticks : list Z) (frames : list (PlayerFrame.t F))
    : result (list (PlayerFrame.t F)) :=
  match ticks with
  | [] => Ok frames
  | tick :: rest =>
      do frame <- PlayerFrame.new parser steamid_ tick ;
      build_loop parser steamid_ rest (frames ++ [frame])
  end.

(** [range(self.start_tick, self.end_tick + 1)], with [end_tick + 1]
    computed exactly. *)
Definition _build_player_frames {F} `{PyFloat F} (parser : DemoParser F)
    (start_tick_ end_tick_ steamid_ : Z)
    : result (list (PlayerFrame.t F)) :=
  build_loop parser steamid_ (py_range start_tick_ (end_tick_ + 1)) [].

(** [PlayerRoundFrames(parser, start_tick, end_tick, steamid)] *)
Definition new {F} `{PyFloat F} (parser : DemoParser F)
    (start_tick_ end_tick_ steamid_ : Z) : result (t F) :=
  do frames <- _build_player_frames parser start_tick_ end_tick_ steamid_ ;
  Ok {| start_tick := start_tick_;
        end_tick := end_tick_;
        steamid := steamid_;
        player_frames := frames |}.

End PlayerRoundFrames.

(** ** PlayerPOVs *)

Module PlayerPOVs.

Record t (F : Type) : Type := {
  demo_parser : DemoParser F;
  steamid : Z;
  round_frames : list (PlayerRoundFrames.t F)
}.
Arguments demo_parser {F}. Arguments steamid {F}. Arguments round_frames {F}.

Fixpoint parse_loop {F} `{PyFloat F} (parser : DemoParser F)
    (steamid_ : Z) (ranges : list (Z * Z))
    (acc : list (PlayerRoundFrames.t F))
    : result (list (PlayerRoundFrames.t F)) :=
  match ranges with
  | [] => Ok acc
  | (start, end_) :: rest =>
      do frames <- PlayerRoundFrames.new parser start end_ steamid_ ;
      parse_loop parser steamid_ rest (acc ++ [frames])
  end.

Definition _parse_round_frames {F} `{PyFloat F} (parser : DemoParser F)
    (steamid_ : Z) : result (list (PlayerRoundFrames.t F)) :=
  do ranges <- DemoPOVs.get_player_alive_ranges parser steamid_ ;
  parse_loop parser steamid_ ranges [].

(** [PlayerPOVs(demo_parser, steamid)] *)
Definition new {F} `{PyFloat F} (parser : DemoParser F) (steamid_ : Z)
    : result (t F) :=
  do frames <- _parse_round_frames parser steamid_ ;
  Ok {| demo_parser := parser; steamid := steamid_;
        round_frames := frames |}.

End PlayerPOVs.

(** ** DemoPOVs.__init__

    [DemoParser(demo_path)] opens the file behind a path.  What the program
    reads from it besides the tables of [DemoParser] is the [steamid]
    column of [parse_player_info()]. *)

Record Demo (F : Type) : Type := {
  demo_parser_of : DemoParser F;
  parse_player_info : list Z
}.
Arguments demo_parser_of {F}. Arguments parse_player_info {F}.

(** [str(n)] for an integer: its decimal digits, with a minus sign for a
    negative number. *)
Definition py_str (n : Z) : string := pretty n.

Module DemoPOVsObject.

Record t (F : Type) : Type := {
  demo_path : string;
  demo_parser : DemoParser F;
  players : gmap string (PlayerPOVs.t F)
}.
Arguments demo_path {F}. Arguments demo_parser {F}. Arguments players {F}.

(** The loop of [_init_players]: one [PlayerPOVs] per roster row, stored
    under [str(player.steamid)]; a later row with the same key overwrites
    the earlier entry. *)
Fixpoint init_loop {F} `{PyFloat F} (parser : DemoParser F)
    (player_info : list Z) (players_ : gmap string (PlayerPOVs.t F))
    : result (gmap string (PlayerPOVs.t F)) :=
  match player_info with
  | [] => Ok players_
  | steamid :: rest =>
      do pov <- PlayerPOVs.new parser steamid ;
      init_loop parser rest (<[py_str steamid := pov]> players_)
  end.

Definition _init_players {F} `{PyFloat F} (demo : Demo F)
    : result (gmap string (PlayerPOVs.t F)) :=
  init_loop (demo_parser_of demo) (parse_player_info demo) ∅.

(** [DemoPOVs(demo_path)] *)
Definition new {F} `{PyFloat F} (open_demo : string → Demo F)
    (demo_path_ : string) : result (t F) :=
  let demo := open_demo demo_path_ in
  do players_ <- _init_players demo ;
  Ok {| demo_path := demo_path_;
        demo_parser := demo_parser_of demo;
        players := players_ |}.

End DemoPOVsObject.

(** ** Properties stated on the program's values *)

(** A range list is ascending and pairwise disjoint when every range both
    starts and ends before each later range starts. *)
Definition range_before (r1 r2 : Z * Z) : Prop :=
  r1.1 < r2.1 ∧ r1.2 < r2.1.

Definition ascending_disjoint (ranges : list (Z * Z)) : Prop :=
  ∀ i j r1 r2, (i < j)%nat →
    ranges !! i = Some r1 → ranges !! j = Some r2 → range_before r1 r2.

(** No round-end marker lies strictly inside a range. *)
Definition confined_to_rounds (round_end_df : list Z)
    (ranges : list (Z * Z)) : Prop :=
  ∀ r m, r ∈ ranges → m ∈ round_end_df → ¬ (r.1 < m ∧ m < r.2).

Definition well_formed_range (r : Z * Z) : Prop := r.1 ≤ r.2.

(** The player's samples as the data model describes them: ticks are not
    negative and strictly increase along the table. *)
Definition tick_sorted (player_data : list TickRow) : Prop :=
  StronglySorted Z.lt (map tr_index player_data)
  ∧ Forall (λ row, 0 ≤ tr_index row) player_data.

(** The player's samples go past every round end except possibly the
    last one. *)
Definition samples_reach_last_round (round_end_df : list Z)
    (player_data : list TickRow) : Prop :=
  ∀ m last_marker last_tick,
    m ∈ round_end_df →
    last round_end_df = Some last_marker →
    last (map tr_index player_data) = Some last_tick →
    m ≠ last_marker → m < last_tick.

(** What holds of the loop state of [get_player_alive_ranges] after the
    samples up to tick [T], for sorted samples and markers. *)
Record loop_inv (round_end_df : list Z) (T : Z)
    (st : DemoPOVs.loop_state) : Prop := {
  inv_boundary : DemoPOVs.last_round_end_tick st ≤ T + 1;
  inv_pending : ∀ s, DemoPOVs.start_tick st = Some s →
    DemoPOVs.last_round_end_tick st ≤ s ∧ s ≤ T
    ∧ (∀ m, m ∈ round_end_df → s < m → T ≤ m)
    ∧ (∀ r, r ∈ DemoPOVs.alive_ranges st → range_before r (s, s));
  inv_past : ∀ r, r ∈ DemoPOVs.alive_ranges st → r.1 ≤ T ∧ r.2 ≤ T;
  inv_sorted : StronglySorted range_before (DemoPOVs.alive_ranges st);
  inv_confined : confined_to_rounds round_end_df (DemoPOVs.alive_ranges st)
}.

(** The state between the boundary check and the liveliness check of the
    sample at tick [t]. *)
Record mid_inv (round_end_df : list Z) (t : Z)
    (st : DemoPOVs.loop_state) : Prop := {
  mid_boundary : DemoPOVs.last_round_end_tick st ≤ t;
  mid_pending : ∀ s, DemoPOVs.start_tick st = Some s →
    DemoPOVs.last_round_end_tick st ≤ s ∧ s < t
    ∧ (∀ m, m ∈ round_end_df → s < m → t ≤ m)
    ∧ (∀ r, r ∈ DemoPOVs.alive_ranges st → range_before r (s, s));
  mid_past : ∀ r, r ∈ DemoPOVs.alive_ranges st → r.1 < t ∧ r.2 < t;
  mid_sorted : StronglySorted range_before (DemoPOVs.alive_ranges st);
  mid_confined : confined_to_rounds round_end_df (DemoPOVs.alive_ranges st)
}.

(** The player has a sample at tick [t] that says alive, or not alive. *)
Definition alive_at (player_data : list TickRow) (t : Z) : Prop :=
  ∃ row, row ∈ player_data ∧ tr_index row = t ∧ tr_is_alive row = true.

Definition dead_at (player_data : list TickRow) (t : Z) : Prop :=
  ∃ row, row ∈ player_data ∧ tr_index row = t ∧ tr_is_alive row = false.

(** Where the pending start and the collected ranges of the loop come
    from. *)
Record provenance_inv (round_end_df : list Z) (player_data : list TickRow)
    (st : DemoPOVs.loop_state) : Prop := {
  prov_pending : ∀ s, DemoPOVs.start_tick st = Some s →
    alive_at player_data s;
  prov_ranges : ∀ s e, (s, e) ∈ DemoPOVs.alive_ranges st →
    alive_at player_data s
    ∧ (e ∈ round_end_df ∨ dead_at player_data (e + 1))
}.

(** Sampling is dense enough for the one-marker-per-sample loop: no two
    positive round-end markers lie between the previous sample tick
    (inclusive) and the next one (exclusive). *)
Fixpoint one_round_end_per_step (round_end_df : list Z) (prev : Z)
    (ticks : list Z) : Prop :=
  match ticks with
  | [] => True
  | t :: rest =>
      (∀ m1 m2, m1 ∈ round_end_df → m2 ∈ round_end_df →
                0 < m1 → prev ≤ m1 → m1 < m2 → m2 < t → False)
      ∧ one_round_end_per_step round_end_df t rest
  end.

(** What holds of the loop state after the samples up to tick [T] when
    sampling is dense: no marker after the boundary has been passed, and
    every collected range is well-formed. *)
Record dense_inv (round_end_df : list Z) (T : Z)
    (st : DemoPOVs.loop_state) : Prop := {
  dense_boundary : 0 ≤ DemoPOVs.last_round_end_tick st;
  dense_markers : ∀ m, m ∈ round_end_df →
    DemoPOVs.last_round_end_tick st < m → T ≤ m;
  dense_pending : ∀ s, DemoPOVs.start_tick st = Some s → s ≤ T;
  dense_ranges : Forall well_formed_range (DemoPOVs.alive_ranges st)
}.

(** What holds of the loop state after the samples [seen], for sorted
    samples: the samples from the pending start on, and the samples inside
    a collected range, all say alive; a collected range ends no later than
    some sample already seen. *)
Record alive_inside_inv (seen : list TickRow)
    (st : DemoPOVs.loop_state) : Prop := {
  inside_pending : ∀ s row, DemoPOVs.start_tick st = Some s →
    row ∈ seen → s ≤ tr_index row → tr_is_alive row = true;
  inside_ranges : ∀ s e row, (s, e) ∈ DemoPOVs.alive_ranges st →
    row ∈ seen → s ≤ tr_index row → tr_index row ≤ e →
    tr_is_alive row = true;
  inside_past : ∀ s e, (s, e) ∈ DemoPOVs.alive_ranges st →
    ∃ row, row ∈ seen ∧ e ≤ tr_index row
}.

(** Every sample seen so far that says alive lies in a collected range or
    at or after the pending start. *)
Definition covered_inv (seen : list TickRow)
    (st : DemoPOVs.loop_state) : Prop :=
  ∀ row, row ∈ seen → tr_is_alive row = true →
    (∃ s e, (s, e) ∈ DemoPOVs.alive_ranges st
            ∧ s ≤ tr_index row ∧ tr_index row ≤ e)
    ∨ (∃ s, DemoPOVs.start_tick st = Some s ∧ s ≤ tr_index row).

(** Index labels are 64-bit; the data model has no negative tick. *)
Definition tick_label (t : Z) : Prop := 0 ≤ t < 2 ^ 63.

Definition labels_fit (round_end_df : list Z)
    (player_data : list TickRow) : Prop :=
  Forall tick_label round_end_df
  ∧ Forall tick_label (map tr_index player_data).

(** Where a collected tuple comes from: its start is a sample tick of the
    player, and an end that is a numpy int64 is a round-end marker or a
    sample tick of the player. *)
Definition end_origin (round_end_df : list Z) (player_data : list TickRow)
    (range : Z * Z) (int64_end : bool) : Prop :=
  range.1 ∈ map tr_index player_data
  ∧ (int64_end = true →
     range.2 ∈ round_end_df ∨ range.2 ∈ map tr_index player_data).

(** Every collected tuple has its kind, in order. *)
Record kinds_inv (round_end_df : list Z) (player_data : list TickRow)
    (st : DemoPOVs.loop_state) : Prop := {
  kinds_ranges :
    Forall2 (end_origin round_end_df player_data)
      (DemoPOVs.alive_ranges st) (DemoPOVs.end_is_int64 st);
  kinds_pending : ∀ s, DemoPOVs.start_tick st = Some s →
    s ∈ map tr_index player_data
}.

(** ** Fixtures: small telemetry sources used by the examples below *)

Module Fixture.

Definition steamid : Z := 7.

Definition tick_row (sample : Z * bool) : TickRow :=
  {| tr_index := sample.1; tr_player_steamid := steamid;
     tr_is_alive := sample.2 |}.

(** A source that knows liveliness samples and round ends only. *)
Definition liveliness_only (samples : list (Z * bool)) (markers : list Z)
    : DemoParser Q :=
  {| parse_ticks_alive := map tick_row samples;
     parse_event_round_end := markers;
     parse_ticks_action := λ _ _, [];
     parse_ticks_info := λ _ _, [] |}.

(** Alive at every tick of [first .. last]. *)
Definition alive_span (first last : Z) : list (Z * bool) :=
  map (λ t, (t, true)) (py_range first (last + 1)).

Definition action_row : ActionRow Q :=
  {| ar_player_steamid := steamid;
     FORWARD := true; LEFT := false; RIGHT := false; BACK := false;
     ar_team_num := 2;
     WALK := false; USE := false; INSPECT := false;
     usercmd_mouse_dx := (3 # 2)%Q; usercmd_mouse_dy := (-1 # 4)%Q;
     FIRE := true; RIGHTCLICK := false; RELOAD := false;
     ar_active_weapon := 9;
     old_jump_pressed := false; in_crouch := false; ducked := true;
     ducking := false; in_duck_jump := true |}.

(** Sampled just before the round clock starts: the game time is 5/2
    seconds short of the round start time. *)
Definition info_row : InfoRow Q :=
  {| health := 100; ir_team_num := 2; ir_active_weapon := 9;
     total_rounds_played := 3; armor_value := 50; balance := 800;
     ir_player_name := "p7"; ir_player_steamid := steamid;
     round_start_time := (25 # 2)%Q; game_time := (10 # 1)%Q |}.

(** A source with frame rows for ticks 10, 11 and 12 of the player. *)
Definition three_ticks : DemoParser Q :=
  {| parse_ticks_alive := map tick_row [(10, true); (11, true); (12, true)];
     parse_event_round_end := [];
     parse_ticks_action := λ sid t,
       if (sid =? steamid) && (10 <=? t) && (t <=? 12)
       then [action_row] else [];
     parse_ticks_info := λ sid t,
       if (sid =? steamid) && (10 <=? t) && (t <=? 12)
       then [info_row] else [] |}.

End Fixture.

Module DemoFixture.

(** A demo whose roster lists the player of the fixture, first sampled
    (alive) one tick after the only round end, and a player, 8, without
    any sample. *)
Definition open_demo (path : string) : Demo Q :=
  {| demo_parser_of := Fixture.liveliness_only [(301, true)] [300];
     parse_player_info := [Fixture.steamid; 8] |}.

(** A demo whose telemetry has liveliness samples but no frame rows: the
    player of the fixture is alive at tick 10, player 8 has no sample. *)
Definition open_without_frames (path : string) : Demo Q :=
  {| demo_parser_of :=
       Fixture.liveliness_only [(10, true); (11, false)] [];
     parse_player_info := [8; Fixture.steamid; 9] |}.

End DemoFixture.

(** ** The error monad *)

Lemma bind_Ok {A B} (m : result A) (k : A → result B) (b : B) :
  bind m k = Ok b ↔ ∃ a, m = Ok a ∧ k a = Ok b.
Proof.
  destruct m as [a|e]; simpl; split.
  - intros Hk. exists a. auto.
  - intros (a' & Ha & Hk). congruence.
  - discriminate.
  - intros (a' & Ha & _). discriminate.
Qed.

Lemma is_Ok_Raise {A} (e : exn) : ¬ is_Ok (@Raise A e).
Proof. intros [a Ha]. discriminate. Qed.

(** ** The alive-range extractor never raises *)

Lemma index_last_cons (i : Z) (index : list Z) :
  ∃ z, index_last (i :: index) = Ok z ∧ last (i :: index) = Some z.
Proof.
  unfold index_last.
  destruct (last (i :: index)) as [z|] eqn:Hlast.
  - exists z. auto.
  - apply last_None in Hlast. discriminate.
Qed.

Lemma close_last_Ok (round_end_df : list Z) (player_data : list TickRow) :
  is_Ok (DemoPOVs.close_last round_end_df player_data
           (DemoPOVs.run_loop round_end_df player_data)).
Proof.
  unfold DemoPOVs.close_last.
  destruct (DemoPOVs.start_tick _) as [s|] eqn:Hstart; [|eexists; eauto].
  destruct round_end_df as [|m markers].
  - destruct player_data as [|row rows]; [discriminate Hstart|].
    destruct (index_last_cons (tr_index row) (map tr_index rows))
      as (z & Hz & _).
    simpl map. rewrite Hz. eexists; reflexivity.
  - destruct (index_last_cons m markers) as (z & Hz & _).
    rewrite Hz. eexists; reflexivity.
Qed.

Lemma collected_alive_ranges_Ok {F} (parser : DemoParser F) (sid : Z) :
  is_Ok (DemoPOVs.collected_alive_ranges parser sid).
Proof. apply close_last_Ok. Qed.

Lemma get_player_alive_ranges_Ok {F} (parser : DemoParser F) (sid : Z) :
  ∃ collected,
    DemoPOVs.collected_alive_ranges parser sid = Ok collected
    ∧ DemoPOVs.get_player_alive_ranges parser sid
      = Ok (DemoPOVs.within_max_len collected
              (DemoPOVs.collected_kinds parser sid)).
Proof.
  destruct (collected_alive_ranges_Ok parser sid) as [collected Hc].
  exists collected. split; [exact Hc|].
  unfold DemoPOVs.get_player_alive_ranges. rewrite Hc. reflexivity.
Qed.

(** ** The range left open after the pass *)

(** What lines 55-57 do: with a range still open, its end is the last
    round-end marker whenever the round-end table is not empty, and the
    last sample tick only when the table is empty. *)
Lemma close_last_open (round_end_df : list Z) (player_data : list TickRow)
    (st : DemoPOVs.loop_state) (s : Z) (ranges : list (Z * Z)) :
  DemoPOVs.start_tick st = Some s →
  DemoPOVs.close_last round_end_df player_data st = Ok ranges →
  ∃ e, ranges = DemoPOVs.alive_ranges st ++ [(s, e)]
       ∧ (round_end_df ≠ [] → last round_end_df = Some e)
       ∧ (round_end_df = [] → last (map tr_index player_data) = Some e).
Proof.
  intros Hs. unfold DemoPOVs.close_last. rewrite Hs.
  intros Hb. apply bind_Ok in Hb as (e & He & Hr).
  exists e. split; [congruence|].
  unfold index_last in He.
  destruct round_end_df as [|m markers].
  - split; [congruence|]. intros _.
    destruct (last (map tr_index player_data)); congruence.
  - split; [|discriminate]. intros _.
    destruct (last (m :: markers)); congruence.
Qed.

(** C1: a range is still open after the pass, a round-end marker exists
    (300) but none lies after the last crossed boundary (also 300), and
    the last observed tick is 500.  The final range is closed at 300, not
    at the last observed tick. *)
Theorem final_range_after_last_boundary :
  let samples := [(100, true); (301, true); (500, true)] in
  let parser := Fixture.liveliness_only samples [300] in
  let player_data :=
    DemoPOVs.player_data_of (parse_ticks_alive parser) Fixture.steamid in
  let st := DemoPOVs.run_loop [300] player_data in
  DemoPOVs.start_tick st = Some 301
  ∧ DemoPOVs.last_round_end_tick st = 300
  ∧ DemoPOVs.round_end_ticks [300] (DemoPOVs.last_round_end_tick st) = []
  ∧ last (map tr_index player_data) = Some 500
  ∧ DemoPOVs.collected_alive_ranges parser Fixture.steamid
    = Ok [(100, 300); (301, 300)]
  ∧ DemoPOVs.get_player_alive_ranges parser Fixture.steamid
    = Ok [(100, 300); (301, 300)].
Proof. vm_compute. repeat split; reflexivity. Qed.

(** C2: a player sampled at ticks 299 to 302, alive throughout, with one
    round end at tick 300.  The returned list holds the range (301, 300),
    whose start lies after its end. *)
Theorem malformed_range_returned :
  let samples := [(299, true); (300, true); (301, true); (302, true)] in
  let parser := Fixture.liveliness_only samples [300] in
  DemoPOVs.get_player_alive_ranges parser Fixture.steamid
  = Ok [(299, 300); (301, 300)]
  ∧ ∃ r, r ∈ [(299, 300); (301, 300)] ∧ ¬ well_formed_range r.
Proof.
  split; [vm_compute; reflexivity|].
  exists (301, 300). split; [repeat constructor|].
  unfold well_formed_range. simpl. lia.
Qed.

(** The loop moves the boundary by one marker per sample: a player first
    sampled after two round ends gets a range closed at the second marker,
    which lies before the range's start. *)
Example one_marker_per_sample :
  DemoPOVs.get_player_alive_ranges
    (Fixture.liveliness_only
       [(500, true); (501, true); (502, false)] [300; 400])
    Fixture.steamid
  = Ok [(500, 400); (501, 501)].
Proof. vm_compute. reflexivity. Qed.

(** ** Clipping at a round boundary *)

Lemma check_round_end_crossed (round_end_df : list Z) (tick m : Z)
    (rest : list Z) (st : DemoPOVs.loop_state) :
  DemoPOVs.round_end_ticks round_end_df (DemoPOVs.last_round_end_tick st)
    = m :: rest →
  m < tick →
  DemoPOVs.check_round_end round_end_df tick st
  = {| DemoPOVs.alive_ranges :=
         match DemoPOVs.start_tick st with
         | Some s => DemoPOVs.alive_ranges st ++ [(s, m)]
         | None => DemoPOVs.alive_ranges st
         end;
       DemoPOVs.end_is_int64 :=
         match DemoPOVs.start_tick st with
         | Some s => DemoPOVs.end_is_int64 st ++ [true]
         | None => DemoPOVs.end_is_int64 st
         end;
       DemoPOVs.start_tick := None;
       DemoPOVs.last_round_end_tick := m |}.
Proof.
  intros Hm Hlt. unfold DemoPOVs.check_round_end. rewrite Hm.
  apply Z.ltb_lt in Hlt. rewrite Hlt. reflexivity.
Qed.

(** C3: when the sample's tick is past the next round-end marker [m] and
    a range opened at [s] is pending, the iteration appends exactly
    [(s, m)], the marker tick itself, moves the boundary to [m], and a
    player still alive opens a new range at the sample's tick.  The
    scenario: alive at every tick from 100 to 500 with a round end at 300
    gives [(100, 300)] first and a second range opened at 301. *)
Theorem boundary_clips_at_marker :
  (∀ (round_end_df : list Z) (st : DemoPOVs.loop_state) (row : TickRow)
     (s m : Z) (rest : list Z),
     DemoPOVs.start_tick st = Some s →
     DemoPOVs.round_end_ticks round_end_df (DemoPOVs.last_round_end_tick st)
       = m :: rest →
     m < tr_index row →
     let st' := DemoPOVs.loop_body round_end_df st row in
     DemoPOVs.alive_ranges st' = DemoPOVs.alive_ranges st ++ [(s, m)]
     ∧ DemoPOVs.last_round_end_tick st' = m
     ∧ DemoPOVs.start_tick st'
       = (if tr_is_alive row then Some (tr_index row) else None))
  ∧ DemoPOVs.get_player_alive_ranges
      (Fixture.liveliness_only (Fixture.alive_span 100 500) [300])
      Fixture.steamid
    = Ok [(100, 300); (301, 300)]
  ∧ DemoPOVs.get_player_alive_ranges
      (Fixture.liveliness_only
         (Fixture.alive_span 100 500 ++ [(501, false)]) [300])
      Fixture.steamid
    = Ok [(100, 300); (301, 500)].
Proof.
  split; [|split; vm_compute; reflexivity].
  intros round_end_df st row s m rest Hs Hm Hlt st'. subst st'.
  unfold DemoPOVs.loop_body.
  rewrite (check_round_end_crossed _ _ _ _ _ Hm Hlt), Hs.
  unfold DemoPOVs.check_alive. simpl.
  destruct (tr_is_alive row); simpl; auto.
Qed.

Lemma boundary_clips_at_marker_witness :
  let st := {| DemoPOVs.alive_ranges := [];
               DemoPOVs.end_is_int64 := [];
               DemoPOVs.start_tick := Some 100;
               DemoPOVs.last_round_end_tick := 0 |} in
  let row := Fixture.tick_row (301, true) in
  let st' := DemoPOVs.loop_body [300] st row in
  DemoPOVs.alive_ranges st' = [(100, 300)]
  ∧ DemoPOVs.last_round_end_tick st' = 300
  ∧ DemoPOVs.start_tick st' = Some 301.
Proof.
  intros st row.
  apply (proj1 boundary_clips_at_marker [300] st row 100 300 []).
  - reflexivity.
  - reflexivity.
  - simpl. lia.
Defined.

(** ** The sanity bound *)

Lemma MAX_LEN_value : DemoPOVs.MAX_LEN = 24320.
Proof. reflexivity. Qed.

Lemma int64_wrap_id (z : Z) :
  - 2 ^ 63 ≤ z < 2 ^ 63 → int64_wrap z = z.
Proof.
  intros Hz. unfold int64_wrap.
  rewrite Z.mod_small by lia. lia.
Qed.

Lemma within_max_len_sublist (ranges : list (Z * Z)) :
  ∀ kinds, sublist (DemoPOVs.within_max_len ranges kinds) ranges.
Proof.
  unfold DemoPOVs.within_max_len.
  induction ranges as [|r ranges IH]; intros kinds; simpl.
  - constructor.
  - destruct kinds as [|k kinds]; simpl; [apply sublist_nil_l|].
    destruct (DemoPOVs.end_minus_start r k <? DemoPOVs.MAX_LEN); simpl;
      constructor; apply IH.
Qed.

Lemma within_max_len_elem (ranges : list (Z * Z)) (kinds : list bool)
    (r : Z * Z) :
  r ∈ DemoPOVs.within_max_len ranges kinds → r ∈ ranges.
Proof.
  intros Hr. eapply elem_of_sublist; [exact Hr|].
  apply within_max_len_sublist.
Qed.

Lemma sublist_StronglySorted {A} (R : relation A) (l1 l2 : list A) :
  sublist l1 l2 → StronglySorted R l2 → StronglySorted R l1.
Proof.
  induction 1 as [|x l1 l2 Hsub IH|x l1 l2 Hsub IH]; intros Hsorted.
  - constructor.
  - apply StronglySorted_cons in Hsorted as [Hall Hsorted].
    constructor; [auto|].
    rewrite Forall_forall in *. intros y Hy.
    apply Hall. eapply elem_of_sublist; eauto.
  - apply StronglySorted_cons in Hsorted as [_ Hsorted]. auto.
Qed.

Lemma within_max_len_sorted (R : relation (Z * Z))
    (ranges : list (Z * Z)) (kinds : list bool) :
  StronglySorted R ranges →
  StronglySorted R (DemoPOVs.within_max_len ranges kinds).
Proof. apply sublist_StronglySorted, within_max_len_sublist. Qed.

(** Where no 64-bit subtraction wraps, line 61 filters on the exact
    difference. *)
Lemma within_max_len_exact (ranges : list (Z * Z)) (kinds : list bool) :
  Forall2 (λ r k, DemoPOVs.end_minus_start r k = r.2 - r.1) ranges kinds →
  DemoPOVs.within_max_len ranges kinds
  = List.filter (λ '(start, end_), end_ - start <? DemoPOVs.MAX_LEN) ranges.
Proof.
  unfold DemoPOVs.within_max_len.
  induction 1 as [|[s e] k ranges kinds Hr Hall IH]; [reflexivity|].
  cbn [combine List.filter]. rewrite Hr. cbn [fst snd].
  destruct (e - s <? DemoPOVs.MAX_LEN); cbn [map fst]; rewrite IH;
    reflexivity.
Qed.

(** A collected range whose exact difference fits 64 bits and is below the
    bound is returned. *)
Lemma within_max_len_keeps (ranges : list (Z * Z)) (kinds : list bool)
    (s e : Z) :
  length kinds = length ranges →
  (s, e) ∈ ranges →
  - 2 ^ 63 ≤ e - s → e - s < DemoPOVs.MAX_LEN →
  (s, e) ∈ DemoPOVs.within_max_len ranges kinds.
Proof.
  intros Hlen Hin Hlo Hhi.
  apply list_elem_of_lookup in Hin as [i Hi].
  destruct (lookup_lt_is_Some_2 kinds i) as [k Hk].
  { rewrite Hlen. eapply lookup_lt_Some. exact Hi. }
  unfold DemoPOVs.within_max_len.
  apply (list_elem_of_fmap_2' fst _ ((s, e), k)); [|reflexivity].
  apply list_elem_of_In, filter_In. split.
  - apply list_elem_of_In, list_elem_of_lookup. exists i.
    clear Hlen Hlo Hhi. revert kinds i Hi Hk.
    induction ranges as [|r ranges IH]; intros kinds i Hi Hk;
      [discriminate|].
    destruct kinds as [|k' kinds]; [discriminate|].
    destruct i as [|i]; simpl in *; [congruence|]. apply IH; assumption.
  - apply Z.ltb_lt. unfold DemoPOVs.end_minus_start.
    rewrite MAX_LEN_value in *.
    destruct k; [rewrite int64_wrap_id|]; lia.
Qed.

(** ** The kinds of the collected ends *)

Lemma loop_body_kinds (round_end_df : list Z) (player_data : list TickRow)
    (st : DemoPOVs.loop_state) (row : TickRow) :
  row ∈ player_data →
  kinds_inv round_end_df player_data st →
  kinds_inv round_end_df player_data
    (DemoPOVs.loop_body round_end_df st row).
Proof.
  intros Hrow [Hranges Hpending].
  assert (Htick : tr_index row ∈ map tr_index player_data)
    by (apply list_elem_of_fmap_2; exact Hrow).
  assert (Hmid : kinds_inv round_end_df player_data
            (DemoPOVs.check_round_end round_end_df (tr_index row) st)).
  { unfold DemoPOVs.check_round_end.
    destruct (DemoPOVs.round_end_ticks round_end_df
                (DemoPOVs.last_round_end_tick st)) as [|f rest] eqn:Hticks;
      [constructor; assumption|].
    destruct (f <? tr_index row); [|constructor; assumption].
    assert (Hf : f ∈ round_end_df).
    { assert (Hin : In f (f :: rest)) by (left; reflexivity).
      rewrite <- Hticks in Hin. unfold DemoPOVs.round_end_ticks in Hin.
      apply filter_In in Hin as [Hin _]. apply list_elem_of_In, Hin. }
    constructor; simpl; [|discriminate].
    destruct (DemoPOVs.start_tick st) as [s|] eqn:Hs; [|exact Hranges].
    apply Forall2_app; [exact Hranges|].
    constructor; [|constructor].
    split; simpl; [apply Hpending; reflexivity|auto]. }
  clear Hranges Hpending. destruct Hmid as [Hranges Hpending].
  unfold DemoPOVs.loop_body, DemoPOVs.check_alive.
  destruct (tr_is_alive row),
    (DemoPOVs.start_tick (DemoPOVs.check_round_end _ _ _)) as [s|] eqn:Hs.
  - constructor; [exact Hranges|].
    intros s0 Hs0. apply Hpending. congruence.
  - constructor; simpl; [exact Hranges|]. intros s0 [= <-]. exact Htick.
  - constructor; simpl; [|discriminate].
    apply Forall2_app; [exact Hranges|].
    constructor; [|constructor].
    split; simpl; [apply Hpending; reflexivity|discriminate].
  - constructor; [exact Hranges|]. intros s0 Hs0. congruence.
Qed.

Lemma fold_kinds (round_end_df : list Z) (player_data : list TickRow)
    (rows : list TickRow) :
  ∀ st,
    (∀ row, row ∈ rows → row ∈ player_data) →
    kinds_inv round_end_df player_data st →
    kinds_inv round_end_df player_data
      (fold_left (DemoPOVs.loop_body round_end_df) rows st).
Proof.
  induction rows as [|row rows IH]; intros st Hsub Hinv; [exact Hinv|].
  simpl. apply IH.
  - intros row' Hrow'. apply Hsub. right. exact Hrow'.
  - apply loop_body_kinds; [apply Hsub; left|exact Hinv].
Qed.

(** The list line 59 starts from, with the kind of every end. *)
Lemma collected_kinds_spec {F} (parser : DemoParser F) (sid : Z)
    (collected : list (Z * Z)) :
  DemoPOVs.collected_alive_ranges parser sid = Ok collected →
  Forall2
    (end_origin (parse_event_round_end parser)
       (DemoPOVs.player_data_of (parse_ticks_alive parser) sid))
    collected (DemoPOVs.collected_kinds parser sid).
Proof.
  unfold DemoPOVs.collected_alive_ranges, DemoPOVs.collected_kinds.
  set (round_end_df := parse_event_round_end parser).
  set (player_data :=
         DemoPOVs.player_data_of (parse_ticks_alive parser) sid).
  intros Hc.
  assert (Hinv : kinds_inv round_end_df player_data
                   (DemoPOVs.run_loop round_end_df player_data)).
  { apply fold_kinds; [auto|].
    constructor; simpl; [constructor|discriminate]. }
  destruct Hinv as [Hranges Hpending].
  unfold DemoPOVs.close_last_kinds.
  destruct (DemoPOVs.start_tick (DemoPOVs.run_loop round_end_df player_data))
    as [s|] eqn:Hs.
  - destruct (close_last_open _ _ _ _ _ Hs Hc) as (e & -> & Hlast & Hnone).
    apply Forall2_app; [exact Hranges|].
    constructor; [|constructor].
    split; simpl; [apply Hpending; reflexivity|]. intros _.
    destruct (decide (round_end_df = [])) as [Hnil|Hne].
    + right. specialize (Hnone Hnil).
      apply last_Some in Hnone as [l' ->].
      apply elem_of_app. right. left.
    + left. specialize (Hlast Hne).
      apply last_Some in Hlast as [l' ->].
      apply elem_of_app. right. left.
  - unfold DemoPOVs.close_last in Hc. rewrite Hs in Hc.
    injection Hc as <-. exact Hranges.
Qed.

Lemma collected_kinds_length {F} (parser : DemoParser F) (sid : Z)
    (collected : list (Z * Z)) :
  DemoPOVs.collected_alive_ranges parser sid = Ok collected →
  length (DemoPOVs.collected_kinds parser sid) = length collected.
Proof.
  intros Hc. symmetry.
  eapply Forall2_length, collected_kinds_spec, Hc.
Qed.

(** No subtraction of line 61 wraps when the labels are non-negative. *)
Lemma labels_fit_exact (round_end_df : list Z) (player_data : list TickRow)
    (r : Z * Z) (k : bool) :
  labels_fit round_end_df player_data →
  end_origin round_end_df player_data r k →
  DemoPOVs.end_minus_start r k = r.2 - r.1.
Proof.
  intros [Hmarkers Hticks] [Hstart Hend].
  rewrite Forall_forall in Hmarkers, Hticks.
  destruct r as [s e]. unfold DemoPOVs.end_minus_start. simpl in *.
  destruct k; [|reflexivity].
  apply int64_wrap_id.
  pose proof (Hticks s Hstart) as Hs. unfold tick_label in *.
  destruct (Hend eq_refl) as [He|He];
    [specialize (Hmarkers e He)|specialize (Hticks e He)]; lia.
Qed.

(** With a negative label the 64-bit difference can wrap: the range from
    tick -1 to the marker 2^63 - 1 spans 2^63 ticks, the difference wraps
    to -2^63, and the range passes the filter. *)
Example wrapped_difference_is_kept :
  DemoPOVs.get_player_alive_ranges
    (Fixture.liveliness_only [(-1, true)] [9223372036854775807])
    Fixture.steamid
  = Ok [(-1, 9223372036854775807)].
Proof. vm_compute. reflexivity. Qed.

(** C5, as stated, fails at the bound itself: a collected range of length
    exactly 24320 does not exceed the bound, yet it is discarded. *)
Lemma length_at_bound_is_discarded :
  let parser := Fixture.liveliness_only [(0, true); (24321, false)] [] in
  ∃ collected returned,
    DemoPOVs.collected_alive_ranges parser Fixture.steamid = Ok collected
    ∧ DemoPOVs.get_player_alive_ranges parser Fixture.steamid = Ok returned
    ∧ ¬ (∀ s e, (s, e) ∈ collected →
                ¬ (e - s > DemoPOVs.MAX_LEN) → (s, e) ∈ returned).
Proof.
  exists [(0, 24320)], [].
  split; [vm_compute; reflexivity|].
  split; [vm_compute; reflexivity|].
  intros Hkept.
  assert (Hin : (0, 24320) ∈ @nil (Z * Z)).
  { apply Hkept; [repeat constructor|]. rewrite MAX_LEN_value. lia. }
  inversion Hin.
Qed.

(** C5, amended: when no tick and no round-end marker is negative (they
    are 64-bit index labels), the post-filter keeps exactly the collected
    ranges with [end - start < 24320], in their order; a range is discarded
    exactly when [end - start >= 24320]. *)
Theorem post_filter_keeps_below_bound {F} (parser : DemoParser F)
    (sid : Z) :
  labels_fit (parse_event_round_end parser)
    (DemoPOVs.player_data_of (parse_ticks_alive parser) sid) →
  ∃ collected returned,
    DemoPOVs.collected_alive_ranges parser sid = Ok collected
    ∧ DemoPOVs.get_player_alive_ranges parser sid = Ok returned
    ∧ sublist returned collected
    ∧ returned
      = List.filter (λ '(start, end_), end_ - start <? 24320) collected
    ∧ DemoPOVs.MAX_LEN = 128 * (55 + 60 + 15 + 15 + 45)
    ∧ DemoPOVs.MAX_LEN = 24320
    ∧ (∀ s e, (s, e) ∈ returned ↔ (s, e) ∈ collected ∧ e - s < 24320)
    ∧ (∀ s e, (s, e) ∈ collected → (s, e) ∉ returned ↔ 24320 ≤ e - s).
Proof.
  intros Hfit.
  destruct (get_player_alive_ranges_Ok parser sid) as (collected & Hc & Hg).
  pose proof (collected_kinds_spec parser sid collected Hc) as Hkinds.
  assert (Hexact : DemoPOVs.within_max_len collected
                     (DemoPOVs.collected_kinds parser sid)
                   = List.filter (λ '(start, end_), end_ - start <? 24320)
                       collected).
  { apply within_max_len_exact.
    eapply Forall2_impl; [exact Hkinds|].
    intros r k Hr. exact (labels_fit_exact _ _ r k Hfit Hr). }
  assert (Hspec : ∀ s e,
            (s, e) ∈ List.filter (λ '(start, end_), end_ - start <? 24320)
                       collected
            ↔ (s, e) ∈ collected ∧ e - s < 24320).
  { intros s e. rewrite !list_elem_of_In, filter_In. simpl.
    rewrite Z.ltb_lt. reflexivity. }
  exists collected,
    (List.filter (λ '(start, end_), end_ - start <? 24320) collected).
  split; [exact Hc|]. split; [rewrite Hg, Hexact; reflexivity|].
  split; [rewrite <- Hexact; apply within_max_len_sublist|].
  split; [reflexivity|]. split; [reflexivity|]. split; [reflexivity|].
  split; [exact Hspec|].
  intros s e Hin. rewrite Hspec.
  split; [intros Hn | intros Hge [_ Hlt]]; [|lia].
  destruct (Z_lt_le_dec (e - s) 24320) as [Hlt|Hge]; [|lia].
  exfalso. apply Hn. auto.
Qed.

Lemma post_filter_keeps_below_bound_witness :
  let parser :=
    Fixture.liveliness_only
      [(0, true); (24321, false); (24400, true); (24500, true)] [24450] in
  ∃ collected returned,
    DemoPOVs.collected_alive_ranges parser Fixture.steamid = Ok collected
    ∧ DemoPOVs.get_player_alive_ranges parser Fixture.steamid = Ok returned
    ∧ collected = [(0, 24320); (24400, 24450); (24500, 24450)]
    ∧ returned = [(24400, 24450); (24500, 24450)]
    ∧ ∀ s e, (s, e) ∈ returned ↔ (s, e) ∈ collected ∧ e - s < 24320.
Proof.
  intros parser.
  destruct (post_filter_keeps_below_bound parser Fixture.steamid)
    as (collected & returned & Hc & Hg & _ & _ & _ & _ & Hiff & _).
  - split; simpl;
      repeat (apply Forall_cons_2 || apply Forall_nil_2);
      unfold tick_label; lia.
  - exists collected, returned.
    split; [exact Hc|]. split; [exact Hg|].
    vm_compute in Hc. injection Hc as <-.
    vm_compute in Hg. injection Hg as <-.
    split; [reflexivity|]. split; [reflexivity|]. exact Hiff.
Defined.

(** ** A player who is never alive *)

Lemma check_round_end_closed (round_end_df : list Z) (tick : Z)
    (st : DemoPOVs.loop_state) :
  DemoPOVs.start_tick st = None →
  let st' := DemoPOVs.check_round_end round_end_df tick st in
  DemoPOVs.start_tick st' = None
  ∧ DemoPOVs.alive_ranges st' = DemoPOVs.alive_ranges st.
Proof.
  intros Hs. unfold DemoPOVs.check_round_end.
  destruct (DemoPOVs.round_end_ticks _ _) as [|m rest]; [auto|].
  destruct (m <? tick); simpl; [|auto]. rewrite Hs. auto.
Qed.

Lemma never_alive_loop (round_end_df : list Z) (player_data : list TickRow)
    (st : DemoPOVs.loop_state) :
  Forall (λ row, tr_is_alive row = false) player_data →
  DemoPOVs.start_tick st = None →
  let st' := fold_left (DemoPOVs.loop_body round_end_df) player_data st in
  DemoPOVs.start_tick st' = None
  ∧ DemoPOVs.alive_ranges st' = DemoPOVs.alive_ranges st.
Proof.
  intros Hdead. revert st.
  induction Hdead as [|row rows Hrow _ IH]; intros st Hs; simpl; [auto|].
  destruct (check_round_end_closed round_end_df (tr_index row) st Hs)
    as [Hs1 Hr1].
  assert (Hbody : DemoPOVs.loop_body round_end_df st row
                  = DemoPOVs.check_round_end round_end_df (tr_index row) st).
  { unfold DemoPOVs.loop_body, DemoPOVs.check_alive.
    rewrite Hrow, Hs1. reflexivity. }
  rewrite Hbody.
  destruct (IH _ Hs1) as [Hs2 Hr2]. split; congruence.
Qed.

Lemma player_data_of_spec (ticks_df : list TickRow) (sid : Z)
    (row : TickRow) :
  row ∈ DemoPOVs.player_data_of ticks_df sid
  ↔ row ∈ ticks_df ∧ tr_player_steamid row = sid.
Proof.
  unfold DemoPOVs.player_data_of.
  rewrite !list_elem_of_In, filter_In, Z.eqb_eq. reflexivity.
Qed.

(** C8: when every sample of the player says "not alive" (in particular
    when the player has no sample at all), the extractor returns the empty
    list and building the player's POV returns a POV with no round frames;
    neither raises. *)
Theorem never_alive_gives_empty_pov {F} `{PyFloat F}
    (parser : DemoParser F) (sid : Z) :
  (∀ row, row ∈ parse_ticks_alive parser →
          tr_player_steamid row = sid → tr_is_alive row = false) →
  DemoPOVs.get_player_alive_ranges parser sid = Ok []
  ∧ PlayerPOVs.new parser sid
    = Ok {| PlayerPOVs.demo_parser := parser;
            PlayerPOVs.steamid := sid;
            PlayerPOVs.round_frames := [] |}.
Proof.
  intros Hdead.
  assert (Hget : DemoPOVs.get_player_alive_ranges parser sid = Ok []).
  { unfold DemoPOVs.get_player_alive_ranges, DemoPOVs.collected_alive_ranges.
    set (player_data :=
           DemoPOVs.player_data_of (parse_ticks_alive parser) sid).
    assert (Hall : Forall (λ row, tr_is_alive row = false) player_data).
    { apply Forall_forall. intros row Hrow.
      apply player_data_of_spec in Hrow as [Hin Hsid]. auto. }
    destruct (never_alive_loop (parse_event_round_end parser) player_data
                DemoPOVs.init_state Hall eq_refl) as [Hs Hr].
    unfold DemoPOVs.close_last, DemoPOVs.run_loop.
    rewrite Hs, Hr. reflexivity. }
  split; [exact Hget|].
  unfold PlayerPOVs.new, PlayerPOVs._parse_round_frames.
  rewrite Hget. reflexivity.
Qed.

Lemma never_alive_gives_empty_pov_witness :
  let parser :=
    Fixture.liveliness_only [(10, false); (11, false); (12, false)] [11] in
  DemoPOVs.get_player_alive_ranges parser Fixture.steamid = Ok []
  ∧ PlayerPOVs.new parser Fixture.steamid
    = Ok {| PlayerPOVs.demo_parser := parser;
            PlayerPOVs.steamid := Fixture.steamid;
            PlayerPOVs.round_frames := [] |}.
Proof.
  intros parser.
  apply (never_alive_gives_empty_pov parser Fixture.steamid).
  intros row Hrow _.
  apply list_elem_of_In in Hrow. simpl in Hrow.
  destruct Hrow as [<-|[<-|[<-|[]]]]; reflexivity.
Defined.

(** ** Frame decoding *)

Lemma get_player_action_rows {F} (parser : DemoParser F) (sid t : Z) :
  match parse_ticks_action parser sid t with
  | [] => PlayerActionFrame.get_player_action parser sid t
          = Raise (ValueError_not_found t sid)
  | row :: _ => PlayerActionFrame.get_player_action parser sid t
                = Raise TypeError_takes_no_arguments
  end.
Proof.
  unfold PlayerActionFrame.get_player_action.
  destruct (parse_ticks_action parser sid t); reflexivity.
Qed.

(** No call of [get_player_action] returns a frame. *)
Lemma get_player_action_raises {F} (parser : DemoParser F) (sid t : Z) :
  ∃ e, PlayerActionFrame.get_player_action parser sid t = Raise e.
Proof.
  pose proof (get_player_action_rows parser sid t) as Hrows.
  destruct (parse_ticks_action parser sid t); eauto.
Qed.

Lemma get_player_info_rows {F} `{PyFloat F} (parser : DemoParser F)
    (sid t : Z) :
  match parse_ticks_info parser sid t with
  | [] => PlayerInfoFrame.get_player_info parser sid t
          = Raise (ValueError_not_found t sid)
  | row :: _ => PlayerInfoFrame.get_player_info parser sid t
                = PlayerInfoFrame.of_row row t
  end.
Proof.
  unfold PlayerInfoFrame.get_player_info.
  destruct (parse_ticks_info parser sid t); reflexivity.
Qed.


Lemma info_of_row_outcome {F} `{PyFloat F} (row : InfoRow F) (t : Z) :
  match fclass (fsub (game_time row) (round_start_time row)) with
  | Finite q =>
      PlayerInfoFrame.of_row row t
      = Ok {| PlayerInfoFrame.tick := t;
              PlayerInfoFrame.pic_path := None;
              PlayerInfoFrame.hp := health row;
              PlayerInfoFrame.team := ir_team_num row;
              PlayerInfoFrame.weapon := ir_active_weapon row;
              PlayerInfoFrame.round := total_rounds_played row;
              PlayerInfoFrame.time := Qtrunc q;
              PlayerInfoFrame.armor := armor_value row;
              PlayerInfoFrame.money := balance row;
              PlayerInfoFrame.player_name := ir_player_name row;
              PlayerInfoFrame.steamid := ir_player_steamid row |}
  | NaN => PlayerInfoFrame.of_row row t = Raise ValueError_int_conversion
  | Infinite =>
      PlayerInfoFrame.of_row row t = Raise OverflowError_int_conversion
  end.
Proof.
  unfold PlayerInfoFrame.of_row, py_int.
  destruct (fclass _); reflexivity.
Qed.

(** A frame is never built: whatever the status query gives, the action
    query ends the constructor with an exception. *)
Lemma PlayerFrame_new_raises {F} `{PyFloat F} (parser : DemoParser F)
    (sid t : Z) :
  ∃ e, PlayerFrame.new parser sid t = Raise e.
Proof.
  unfold PlayerFrame.new.
  destruct (PlayerInfoFrame.get_player_info parser sid t) as [info|e];
    [|eexists; reflexivity].
  destruct (get_player_action_raises parser sid t) as [e ->].
  eexists; reflexivity.
Qed.


(** ** Assembling the frames of one range *)

Lemma py_range_cons (start stop : Z) :
  start < stop →
  py_range start stop = start :: py_range (start + 1) stop.
Proof.
  intros Hlt. unfold py_range. rewrite seqZ_cons by lia.
  f_equal. f_equal; lia.
Qed.

Lemma py_range_nil (start stop : Z) : stop ≤ start → py_range start stop = [].
Proof. intros Hle. unfold py_range. apply seqZ_nil. lia. Qed.


(** A range that is not empty raises the exception of its first tick. *)
Lemma round_frames_first_tick_raises {F} `{PyFloat F}
    (parser : DemoParser F) (start end_ sid : Z) :
  start ≤ end_ →
  ∃ e, PlayerFrame.new parser sid start = Raise e
       ∧ PlayerRoundFrames.new parser start end_ sid = Raise e.
Proof.
  intros Hle. destruct (PlayerFrame_new_raises parser sid start) as [e He].
  exists e. split; [exact He|].
  unfold PlayerRoundFrames.new, PlayerRoundFrames._build_player_frames.
  rewrite py_range_cons by lia. simpl. rewrite He. reflexivity.
Qed.

(** C6 does not hold of the code.  The fixture has a status row and an
    action row of the player at each of the ticks 10, 11 and 12, and the
    status decoder succeeds at tick 10; still the assembler returns no
    frame sequence for the range (10, 12): the action decoder raises
    TypeError at tick 10, the first tick of the range, because line 102
    calls [PlayerActionFrame] with keyword arguments and the class, unlike
    [PlayerInfoFrame], defines no [__init__]. *)
Theorem dense_range_raises_type_error :
  map (parse_ticks_info Fixture.three_ticks Fixture.steamid) [10; 11; 12]
  = [[Fixture.info_row]; [Fixture.info_row]; [Fixture.info_row]]
  ∧ map (parse_ticks_action Fixture.three_ticks Fixture.steamid) [10; 11; 12]
    = [[Fixture.action_row]; [Fixture.action_row]; [Fixture.action_row]]
  ∧ is_Ok (PlayerInfoFrame.get_player_info Fixture.three_ticks
             Fixture.steamid 10)
  ∧ PlayerActionFrame.get_player_action Fixture.three_ticks
      Fixture.steamid 10 = Raise TypeError_takes_no_arguments
  ∧ PlayerFrame.new Fixture.three_ticks Fixture.steamid 10
    = Raise TypeError_takes_no_arguments
  ∧ PlayerRoundFrames.new Fixture.three_ticks 10 12 Fixture.steamid
    = Raise TypeError_takes_no_arguments.
Proof.
  split; [reflexivity|]. split; [reflexivity|].
  split; [eexists; vm_compute; reflexivity|].
  split; [reflexivity|]. split; vm_compute; reflexivity.
Qed.

(** C10, as stated, fails for the malformed range whose end is just one
    tick before its start: the frame sequence is empty and its length, 0,
    still equals [end - start + 1]. *)
Lemma empty_range_keeps_length_equation :
  ∃ rf,
    PlayerRoundFrames.new (Fixture.liveliness_only [] []) 301 300
      Fixture.steamid = Ok rf
    ∧ PlayerRoundFrames.player_frames rf = []
    ∧ Z.of_nat (length (PlayerRoundFrames.player_frames rf)) = 300 - 301 + 1.
Proof. eexists. split; [reflexivity|]. split; reflexivity. Qed.

(** C10, amended: for a range with [end < start] the assembler raises
    nothing and returns a RoundFrames holding that range and an empty
    frame sequence, without looking at the telemetry source; the length
    then differs from [end - start + 1] exactly when [end < start - 1]. *)
Theorem malformed_range_builds_empty {F} `{PyFloat F}
    (parser : DemoParser F) (start end_ sid : Z) :
  end_ < start →
  ∃ rf,
    PlayerRoundFrames.new parser start end_ sid = Ok rf
    ∧ rf = {| PlayerRoundFrames.start_tick := start;
              PlayerRoundFrames.end_tick := end_;
              PlayerRoundFrames.steamid := sid;
              PlayerRoundFrames.player_frames := [] |}
    ∧ (Z.of_nat (length (PlayerRoundFrames.player_frames rf))
         ≠ end_ - start + 1
       ↔ end_ < start - 1).
Proof.
  intros Hlt. eexists. split; [|split; [reflexivity|]].
  - unfold PlayerRoundFrames.new, PlayerRoundFrames._build_player_frames.
    rewrite py_range_nil by lia. reflexivity.
  - simpl. lia.
Qed.

Lemma malformed_range_builds_empty_witness :
  ∃ rf,
    PlayerRoundFrames.new Fixture.three_ticks 12 10 Fixture.steamid = Ok rf
    ∧ PlayerRoundFrames.player_frames rf = []
    ∧ Z.of_nat (length (PlayerRoundFrames.player_frames rf)) ≠ 10 - 12 + 1.
Proof.
  destruct (malformed_range_builds_empty Fixture.three_ticks 12 10
              Fixture.steamid) as (rf & Hnew & Hrf & Hshape).
  - lia.
  - exists rf. split; [exact Hnew|]. split; [rewrite Hrf; reflexivity|].
    apply Hshape. lia.
Defined.

(** ** Missing rows *)



(** Where no row is missing the first tick of the range fails all the
    same: the assembler of the fixture never reaches tick 13, the first
    tick without a row. *)
Example missing_row_example :
  PlayerRoundFrames.new Fixture.three_ticks 10 14 Fixture.steamid
  = Raise TypeError_takes_no_arguments
  ∧ PlayerRoundFrames.new Fixture.three_ticks 13 14 Fixture.steamid
    = Raise (ValueError_not_found 13 Fixture.steamid).
Proof. split; vm_compute; reflexivity. Qed.

(** ** Derived fields *)

(** [Qtrunc] rounds toward zero: down for a non-negative rational, up for
    a negative one. *)
Lemma Qtrunc_nonneg (q : Q) :
  (0 <= q)%Q →
  Qtrunc q = Qfloor q
  ∧ (inject_Z (Qtrunc q) <= q)%Q ∧ (q < inject_Z (Qtrunc q + 1))%Q.
Proof.
  intros Hq. unfold Qtrunc.
  apply Qle_bool_iff in Hq. rewrite Hq.
  split; [reflexivity|]. split; [apply Qfloor_le | apply Qlt_floor].
Qed.

Lemma Qtrunc_neg (q : Q) :
  (q < 0)%Q →
  Qtrunc q = Qceiling q
  ∧ (inject_Z (Qtrunc q - 1) < q)%Q ∧ (q <= inject_Z (Qtrunc q))%Q.
Proof.
  intros Hq. unfold Qtrunc.
  destruct (Qle_bool 0 q) eqn:Hb.
  - apply Qle_bool_iff in Hb. exfalso. exact (Qlt_not_le _ _ Hq Hb).
  - split; [reflexivity|]. split; [apply Qceiling_lt | apply Qle_ceiling].
Qed.

(** C9 does not hold of the code: no action frame is ever decoded, so the
    jump and crouch flags are computed and lost.  At tick 10 of the fixture
    the action query returns a row with the in-duck-jump and the
    duck-completed signal set; lines 99-100 compute jump = 1 and
    crouch = 1, the arguments of the call on lines 102-117; the call raises
    TypeError, the class having no [__init__].  The status decoder does
    return its frame, with the time truncated toward zero and left
    negative: 10 - 12.5 gives -2. *)
Theorem derived_flags_never_returned :
  parse_ticks_action Fixture.three_ticks Fixture.steamid 10
  = [Fixture.action_row]
  ∧ PlayerActionFrame.jump (PlayerActionFrame.of_row Fixture.action_row 10)
    = 1
  ∧ PlayerActionFrame.crouch (PlayerActionFrame.of_row Fixture.action_row 10)
    = 1
  ∧ PlayerActionFrame.get_player_action Fixture.three_ticks
      Fixture.steamid 10 = Raise TypeError_takes_no_arguments
  ∧ PlayerFrame.new Fixture.three_ticks Fixture.steamid 10
    = Raise TypeError_takes_no_arguments
  ∧ (∃ frame,
       PlayerInfoFrame.get_player_info Fixture.three_ticks Fixture.steamid 10
         = Ok frame
       ∧ PlayerInfoFrame.time frame = -2).
Proof.
  split; [reflexivity|]. split; [reflexivity|]. split; [reflexivity|].
  split; [reflexivity|]. split; [vm_compute; reflexivity|].
  eexists. split; vm_compute; reflexivity.
Qed.

(** ** Order and round confinement of the extracted ranges *)

Section LoopInvariant.

Variable round_end_df : list Z.
Hypothesis markers_sorted : StronglySorted Z.lt round_end_df.

(** On a sorted table the first marker after the boundary is the
    smallest one after it. *)
Lemma round_end_ticks_first (boundary f : Z) (rest : list Z) :
  DemoPOVs.round_end_ticks round_end_df boundary = f :: rest →
  boundary < f ∧ ∀ m, m ∈ round_end_df → boundary < m → f ≤ m.
Proof.
  unfold DemoPOVs.round_end_ticks.
  revert markers_sorted.
  induction round_end_df as [|m0 markers IH]; simpl; [discriminate|].
  intros [Hall Hsorted]%StronglySorted_cons.
  rewrite Forall_forall in Hall.
  destruct (boundary <? m0) eqn:Hcmp.
  - intros [= <- <-]. apply Z.ltb_lt in Hcmp. split; [exact Hcmp|].
    intros m Hm _. apply elem_of_cons in Hm as [->|Hm]; [lia|].
    specialize (Hall m Hm). lia.
  - intros Hrest. destruct (IH Hsorted Hrest) as [Hlt Hmin].
    split; [exact Hlt|].
    intros m Hm Hb. apply elem_of_cons in Hm as [->|Hm].
    + apply Z.ltb_ge in Hcmp. lia.
    + auto.
Qed.

Lemma round_end_ticks_none (boundary : Z) :
  DemoPOVs.round_end_ticks round_end_df boundary = [] →
  ∀ m, m ∈ round_end_df → m ≤ boundary.
Proof.
  unfold DemoPOVs.round_end_ticks. intros Hnil m Hm.
  destruct (Z_lt_le_dec boundary m) as [Hlt|Hle]; [|exact Hle].
  assert (Hin : In m (List.filter (λ t, boundary <? t) round_end_df)).
  { apply filter_In. split; [by apply list_elem_of_In|by apply Z.ltb_lt]. }
  rewrite Hnil in Hin. destruct Hin.
Qed.

Lemma sorted_snoc (ranges : list (Z * Z)) (s e : Z) :
  StronglySorted range_before ranges →
  (∀ r, r ∈ ranges → range_before r (s, s)) →
  StronglySorted range_before (ranges ++ [(s, e)]).
Proof.
  intros Hsorted Hbefore. apply StronglySorted_app_2.
  - intros r1 r2 Hr1 Hr2. apply list_elem_of_singleton in Hr2 as ->.
    exact (Hbefore r1 Hr1).
  - exact Hsorted.
  - repeat constructor.
Qed.

Lemma confined_snoc (ranges : list (Z * Z)) (s e : Z) :
  confined_to_rounds round_end_df ranges →
  (∀ m, m ∈ round_end_df → ¬ (s < m ∧ m < e)) →
  confined_to_rounds round_end_df (ranges ++ [(s, e)]).
Proof.
  intros Hconf Hnew r m Hr Hm.
  apply elem_of_app in Hr as [Hr|Hr]; [exact (Hconf r m Hr Hm)|].
  apply list_elem_of_singleton in Hr as ->. exact (Hnew m Hm).
Qed.

Lemma check_round_end_inv (T t : Z) (st : DemoPOVs.loop_state) :
  loop_inv round_end_df T st → T < t →
  mid_inv round_end_df t (DemoPOVs.check_round_end round_end_df t st).
Proof.
  intros [Hb Hp Hpast Hsorted Hconf] Hlt.
  unfold DemoPOVs.check_round_end.
  destruct (DemoPOVs.round_end_ticks round_end_df
              (DemoPOVs.last_round_end_tick st)) as [|f rest] eqn:Hticks.
  - (* no marker is left after the boundary *)
    pose proof (round_end_ticks_none _ Hticks) as Hnone.
    constructor; try assumption; [lia| |].
    + intros s Hs. destruct (Hp s Hs) as (HL & HsT & Hm & Hr).
      repeat split; try lia; try (apply Hr; assumption).
      intros m Hin Hsm. specialize (Hnone m Hin). lia.
    + intros r Hr. specialize (Hpast r Hr). lia.
  - destruct (round_end_ticks_first _ _ _ Hticks) as [HLf Hmin].
    destruct (f <? t) eqn:Hcross.
    + (* the sample is past the marker [f]: the boundary is crossed *)
      apply Z.ltb_lt in Hcross.
      constructor; simpl; [lia|discriminate| | |].
      * destruct (DemoPOVs.start_tick st) as [s|] eqn:Hs.
        -- intros r Hr. apply elem_of_app in Hr as [Hr|Hr].
           ++ specialize (Hpast r Hr). lia.
           ++ apply list_elem_of_singleton in Hr as ->. simpl.
              destruct (Hp s eq_refl) as (_ & HsT & _). lia.
        -- intros r Hr. specialize (Hpast r Hr). lia.
      * destruct (DemoPOVs.start_tick st) as [s|] eqn:Hs; [|exact Hsorted].
        destruct (Hp s eq_refl) as (_ & _ & _ & Hr).
        apply sorted_snoc; assumption.
      * destruct (DemoPOVs.start_tick st) as [s|] eqn:Hs; [|exact Hconf].
        destruct (Hp s eq_refl) as (HL & _ & _ & _).
        apply confined_snoc; [exact Hconf|].
        intros m Hin [Hsm Hmf]. specialize (Hmin m Hin). lia.
    + (* the next marker is not passed yet *)
      apply Z.ltb_ge in Hcross.
      constructor; try assumption; [lia| |].
      * intros s Hs. destruct (Hp s Hs) as (HL & HsT & Hm & Hr).
        repeat split; try lia; try (apply Hr; assumption).
        intros m Hin Hsm. specialize (Hmin m Hin). lia.
      * intros r Hr. specialize (Hpast r Hr). lia.
Qed.

Lemma check_alive_inv (t : Z) (is_alive : bool)
    (st : DemoPOVs.loop_state) :
  mid_inv round_end_df t st → loop_inv round_end_df t (DemoPOVs.check_alive t is_alive st).
Proof.
  intros [Hb Hp Hpast Hsorted Hconf].
  unfold DemoPOVs.check_alive.
  destruct is_alive, (DemoPOVs.start_tick st) as [s|] eqn:Hs.
  - (* alive, a range is pending: nothing changes *)
    constructor; try assumption; [lia| |].
    + intros s' Hs'. rewrite Hs in Hs'. injection Hs' as <-.
      destruct (Hp s eq_refl) as (HL & Hst & Hm & Hr).
      repeat split; try lia; try (apply Hr; assumption).
      intros m Hin Hsm. exact (Hm m Hin Hsm).
    + intros r Hr. specialize (Hpast r Hr). lia.
  - (* alive, nothing pending: a range opens at [t] *)
    constructor; simpl; try assumption; [lia| |].
    + intros s' [= <-]. repeat split; try lia.
      * apply (Hpast r); assumption.
      * apply (Hpast r); assumption.
    + intros r Hr. specialize (Hpast r Hr). lia.
  - (* not alive, a range is pending: it closes at [t - 1] *)
    destruct (Hp s eq_refl) as (HL & Hst & Hm & Hr).
    constructor; simpl; [lia|discriminate| | |].
    + intros r Hin. apply elem_of_app in Hin as [Hin|Hin].
      * specialize (Hpast r Hin). lia.
      * apply list_elem_of_singleton in Hin as ->. simpl. lia.
    + apply sorted_snoc; assumption.
    + apply confined_snoc; [exact Hconf|].
      intros m Hin [Hsm Hmt]. specialize (Hm m Hin Hsm). lia.
  - (* not alive, nothing pending *)
    constructor; try assumption; [lia| |].
    + intros s' Hs'. congruence.
    + intros r Hr. specialize (Hpast r Hr). lia.
Qed.

Lemma loop_body_inv (T : Z) (st : DemoPOVs.loop_state) (row : TickRow) :
  loop_inv round_end_df T st → T < tr_index row →
  loop_inv round_end_df (tr_index row) (DemoPOVs.loop_body round_end_df st row).
Proof.
  intros Hinv Hlt. unfold DemoPOVs.loop_body.
  apply check_alive_inv, (check_round_end_inv T); assumption.
Qed.

Lemma init_state_inv : loop_inv round_end_df (-1) DemoPOVs.init_state.
Proof.
  constructor; simpl.
  - lia.
  - discriminate.
  - intros r Hr. inversion Hr.
  - constructor.
  - intros r m Hr. inversion Hr.
Qed.

Lemma last_default_cons (T t : Z) (ticks : list Z) :
  default T (last (t :: ticks)) = default t (last ticks).
Proof.
  destruct ticks as [|t' ticks]; [reflexivity|].
  rewrite last_cons_cons.
  destruct (last (t' :: ticks)) eqn:Hlast; [reflexivity|].
  apply last_None in Hlast. discriminate.
Qed.

Lemma fold_loop_inv (player_data : list TickRow) :
  ∀ (T : Z) (st : DemoPOVs.loop_state),
    loop_inv round_end_df T st →
    StronglySorted Z.lt (T :: map tr_index player_data) →
    loop_inv round_end_df (default T (last (map tr_index player_data)))
      (fold_left (DemoPOVs.loop_body round_end_df) player_data st).
Proof.
  induction player_data as [|row rows IH]; intros T st Hinv Hsorted;
    [exact Hinv|].
  simpl map in *. simpl fold_left.
  rewrite last_default_cons.
  apply StronglySorted_cons in Hsorted as [Hall Hsorted].
  apply IH; [|exact Hsorted].
  apply (loop_body_inv T); [exact Hinv|].
  apply Forall_cons in Hall as [Hlt _]. exact Hlt.
Qed.

End LoopInvariant.

Lemma StronglySorted_lookup {A} (R : relation A) (l : list A) :
  StronglySorted R l →
  ∀ i j x y, (i < j)%nat → l !! i = Some x → l !! j = Some y → R x y.
Proof.
  induction 1 as [|a l Hsorted IH Hall]; intros i j x y Hij Hi Hj;
    [discriminate|].
  destruct j as [|j]; [lia|]. simpl in Hj.
  destruct i as [|i]; simpl in Hi.
  - injection Hi as <-. rewrite Forall_forall in Hall.
    apply Hall, list_elem_of_lookup. eauto.
  - apply (IH i j); [lia|assumption..].
Qed.

Lemma tick_sorted_from (player_data : list TickRow) :
  tick_sorted player_data →
  StronglySorted Z.lt (-1 :: map tr_index player_data).
Proof.
  intros [Hsorted Hnonneg]. constructor; [exact Hsorted|].
  rewrite Forall_forall in Hnonneg. apply Forall_forall. intros t Ht.
  apply list_elem_of_fmap in Ht as (row & -> & Hrow).
  specialize (Hnonneg row Hrow). lia.
Qed.

(** C4, as stated, fails for the range closed after the pass: a player
    whose samples stop at tick 101 while alive, with round ends at 300 and
    400, gets the single range (100, 400), and the marker 300 lies strictly
    inside it. *)
Lemma final_range_straddles_round_end :
  let parser :=
    Fixture.liveliness_only [(100, true); (101, true)] [300; 400] in
  tick_sorted
    (DemoPOVs.player_data_of (parse_ticks_alive parser) Fixture.steamid)
  ∧ StronglySorted Z.lt (parse_event_round_end parser)
  ∧ ∃ ranges,
      DemoPOVs.get_player_alive_ranges parser Fixture.steamid = Ok ranges
      ∧ ¬ confined_to_rounds (parse_event_round_end parser) ranges.
Proof.
  split; [|split].
  - split; simpl.
    + repeat (apply SSorted_cons || apply SSorted_nil
              || apply Forall_cons_2 || apply Forall_nil_2); lia.
    + repeat (apply Forall_cons_2 || apply Forall_nil_2); simpl; lia.
  - simpl.
    repeat (apply SSorted_cons || apply SSorted_nil
            || apply Forall_cons_2 || apply Forall_nil_2); lia.
  - exists [(100, 400)]. split; [vm_compute; reflexivity|].
    intros Hconf. apply (Hconf (100, 400) 300); simpl.
    + repeat constructor.
    + repeat constructor.
    + lia.
Qed.

(** C4, amended: for a player whose sample ticks are non-negative and
    strictly increasing, with strictly increasing round-end markers, the
    extractor returns ranges that are ascending by start tick and pairwise
    non-overlapping (each range ends before every later one starts); a
    round-end marker can lie strictly inside a returned range only if that
    range is the one closed after the pass, from the still-open start to
    the last marker; and no returned range has a marker strictly inside
    when the player's samples go past every marker but the last. *)
Theorem ranges_ordered_and_confined {F} (parser : DemoParser F) (sid : Z) :
  let round_end_df := parse_event_round_end parser in
  let player_data :=
    DemoPOVs.player_data_of (parse_ticks_alive parser) sid in
  tick_sorted player_data →
  StronglySorted Z.lt round_end_df →
  ∃ ranges,
    DemoPOVs.get_player_alive_ranges parser sid = Ok ranges
    ∧ ascending_disjoint ranges
    ∧ (∀ r m, r ∈ ranges → m ∈ round_end_df → r.1 < m → m < r.2 →
              DemoPOVs.start_tick (DemoPOVs.run_loop round_end_df player_data)
                = Some r.1
              ∧ last round_end_df = Some r.2)
    ∧ (samples_reach_last_round round_end_df player_data →
       confined_to_rounds round_end_df ranges).
Proof.
  intros round_end_df player_data Hticks Hmarkers.
  destruct (get_player_alive_ranges_Ok parser sid) as (collected & Hc & Hg).
  exists (DemoPOVs.within_max_len collected
            (DemoPOVs.collected_kinds parser sid)).
  split; [exact Hg|].
  generalize (DemoPOVs.collected_kinds parser sid). intros kinds.
  unfold DemoPOVs.collected_alive_ranges in Hc.
  fold round_end_df player_data in Hc.
  pose proof (fold_loop_inv round_end_df Hmarkers player_data (-1)
                DemoPOVs.init_state (init_state_inv round_end_df)
                (tick_sorted_from _ Hticks)) as Hinv.
  fold (DemoPOVs.run_loop round_end_df player_data) in Hinv.
  set (st := DemoPOVs.run_loop round_end_df player_data) in *.
  destruct Hinv as [Hb Hp Hpast Hsorted Hconf].
  destruct (DemoPOVs.start_tick st) as [s|] eqn:Hs.
  - (* a range is still open after the pass *)
    destruct (close_last_open _ _ _ _ _ Hs Hc) as (e & -> & Hlast & Hnone).
    destruct (Hp s eq_refl) as (HL & HsT & Hm & Hr).
    split; [|split].
    + intros i j r1 r2.
      apply StronglySorted_lookup, within_max_len_sorted.
      apply sorted_snoc; assumption.
    + intros r m Hin Hmarker Hlo Hhi.
      apply within_max_len_elem, elem_of_app in Hin as [Hin|Hin].
      * exfalso. exact (Hconf r m Hin Hmarker (conj Hlo Hhi)).
      * apply list_elem_of_singleton in Hin as ->. simpl.
        split; [reflexivity|]. apply Hlast. intros Hnil.
        rewrite Hnil in Hmarker. inversion Hmarker.
    + intros Hreach r m Hin Hmarker [Hlo Hhi].
      apply within_max_len_elem, elem_of_app in Hin as [Hin|Hin].
      * exact (Hconf r m Hin Hmarker (conj Hlo Hhi)).
      * apply list_elem_of_singleton in Hin as ->. simpl in *.
        assert (Hne : round_end_df ≠ []).
        { intros Hnil. rewrite Hnil in Hmarker. inversion Hmarker. }
        specialize (Hlast Hne). specialize (Hm m Hmarker Hlo).
        destruct (last (map tr_index player_data)) as [T|] eqn:HT;
          simpl in *.
        -- specialize (Hreach m e T Hmarker Hlast HT). lia.
        -- apply last_None in HT. destruct player_data; [|discriminate].
           discriminate Hs.
  - (* nothing is open after the pass *)
    unfold DemoPOVs.close_last in Hc. rewrite Hs in Hc.
    injection Hc as <-. fold st.
    split; [|split].
    + intros i j r1 r2.
      apply StronglySorted_lookup, within_max_len_sorted. exact Hsorted.
    + intros r m Hin Hmarker Hlo Hhi. exfalso.
      apply within_max_len_elem in Hin.
      exact (Hconf r m Hin Hmarker (conj Hlo Hhi)).
    + intros _ r m Hin Hmarker.
      apply within_max_len_elem in Hin. exact (Hconf r m Hin Hmarker).
Qed.

Lemma ranges_ordered_and_confined_witness :
  let samples := [(100, true); (200, true); (301, true); (302, false)] in
  let parser := Fixture.liveliness_only samples [300; 400] in
  ∃ ranges,
    DemoPOVs.get_player_alive_ranges parser Fixture.steamid = Ok ranges
    ∧ ascending_disjoint ranges
    ∧ confined_to_rounds [300; 400] ranges.
Proof.
  intros samples parser.
  destruct (ranges_ordered_and_confined parser Fixture.steamid)
    as (ranges & Hget & Hordered & _ & Hconfined).
  - split; simpl.
    + repeat (apply SSorted_cons || apply SSorted_nil
              || apply Forall_cons_2 || apply Forall_nil_2); lia.
    + repeat (apply Forall_cons_2 || apply Forall_nil_2); simpl; lia.
  - simpl.
    repeat (apply SSorted_cons || apply SSorted_nil
            || apply Forall_cons_2 || apply Forall_nil_2); lia.
  - exists ranges. split; [exact Hget|]. split; [exact Hordered|].
    apply Hconfined. intros m last_marker last_tick Hm Hmarker Htick Hne.
    simpl in Hmarker, Htick.
    injection Hmarker as <-. injection Htick as <-.
    apply elem_of_cons in Hm as [->|Hm]; [lia|].
    apply list_elem_of_singleton in Hm. contradiction.
Defined.

Example sorted_samples_example :
  DemoPOVs.get_player_alive_ranges
    (Fixture.liveliness_only
       [(100, true); (200, true); (301, true); (302, false)] [300; 400])
    Fixture.steamid
  = Ok [(100, 300); (301, 301)].
Proof. vm_compute. reflexivity. Qed.

(** ** What a successful build contains *)

(** The frame loop succeeds exactly when every tick builds a frame, and
    then appends those frames in tick order. *)
Lemma build_loop_Ok_iff {F} `{PyFloat F} (parser : DemoParser F) (sid : Z)
    (ticks : list Z) :
  ∀ (frames out : list (PlayerFrame.t F)),
    PlayerRoundFrames.build_loop parser sid ticks frames = Ok out
    ↔ ∃ built,
        out = frames ++ built
        ∧ Forall2 (λ t frame, PlayerFrame.new parser sid t = Ok frame)
            ticks built.
Proof.
  induction ticks as [|t ticks IH]; intros frames out; simpl.
  - split.
    + intros [= <-]. exists []. rewrite app_nil_r. split; [reflexivity|].
      constructor.
    + intros (built & -> & Hall). inversion Hall. rewrite app_nil_r.
      reflexivity.
  - destruct (PlayerFrame.new parser sid t) as [frame|e] eqn:Hnew; simpl.
    + rewrite IH. split.
      * intros (built & -> & Hall). exists (frame :: built).
        rewrite <- app_assoc. split; [reflexivity|].
        constructor; assumption.
      * intros (built & -> & Hall).
        inversion Hall as [|t' frame' ticks' built' Hhd Htl]; subst.
        assert (frame' = frame) as -> by congruence.
        exists built'. rewrite <- app_assoc. split; [reflexivity|exact Htl].
    + split; [discriminate|].
      intros (built & _ & Hall). inversion Hall; congruence.
Qed.

(** What [PlayerRoundFrames(...)] returns, and when. *)
Lemma round_frames_new_spec {F} `{PyFloat F} (parser : DemoParser F)
    (start end_ sid : Z) (rf : PlayerRoundFrames.t F) :
  PlayerRoundFrames.new parser start end_ sid = Ok rf
  ↔ PlayerRoundFrames.start_tick rf = start
    ∧ PlayerRoundFrames.end_tick rf = end_
    ∧ PlayerRoundFrames.steamid rf = sid
    ∧ length (PlayerRoundFrames.player_frames rf)
      = Z.to_nat (end_ - start + 1)
    ∧ ∀ t, start ≤ t ≤ end_ →
        ∃ frame,
          PlayerFrame.new parser sid t = Ok frame
          ∧ PlayerRoundFrames.player_frames rf !! Z.to_nat (t - start)
            = Some frame.
Proof.
  unfold PlayerRoundFrames.new, PlayerRoundFrames._build_player_frames.
  split.
  - intros Hnew. apply bind_Ok in Hnew as (frames & Hloop & [= <-]).
    apply build_loop_Ok_iff in Hloop as (built & -> & Hall). simpl.
    split; [reflexivity|]. split; [reflexivity|]. split; [reflexivity|].
    pose proof (Forall2_length _ _ _ Hall) as Hlen.
    unfold py_range in Hlen, Hall. rewrite length_seqZ in Hlen.
    split; [rewrite <- Hlen; f_equal; lia|].
    intros t Ht.
    assert (Hlook : seqZ start (end_ + 1 - start) !! Z.to_nat (t - start)
                    = Some t).
    { apply lookup_seqZ. split; lia. }
    destruct (Forall2_lookup_l _ _ _ _ _ Hall Hlook) as (frame & Hf & Hnew).
    exists frame. auto.
  - intros (Hs & He & Hsid & Hlen & Hframes).
    destruct rf as [start' end' sid' frames]. simpl in *. subst.
    assert (Hloop : PlayerRoundFrames.build_loop parser sid
                      (py_range start (end_ + 1)) [] = Ok frames).
    { apply build_loop_Ok_iff. exists frames. split; [reflexivity|].
      apply Forall2_same_length_lookup_2.
      - unfold py_range. rewrite length_seqZ. rewrite Hlen. f_equal. lia.
      - intros i t frame Ht Hf. unfold py_range in Ht.
        apply lookup_seqZ in Ht as [-> Hi].
        destruct (Hframes (start + Z.of_nat i) ltac:(lia))
          as (frame' & Hnew & Hlook).
        replace (Z.to_nat (start + Z.of_nat i - start)) with i in Hlook
          by lia.
        congruence. }
    rewrite Hloop. reflexivity.
Qed.


(** The range loop of [_parse_round_frames] succeeds exactly when every
    range builds, and then appends the results in range order. *)
Lemma parse_loop_Ok_iff {F} `{PyFloat F} (parser : DemoParser F) (sid : Z)
    (ranges : list (Z * Z)) :
  ∀ (acc out : list (PlayerRoundFrames.t F)),
    PlayerPOVs.parse_loop parser sid ranges acc = Ok out
    ↔ ∃ built,
        out = acc ++ built
        ∧ Forall2 (λ r rf, PlayerRoundFrames.new parser r.1 r.2 sid = Ok rf)
            ranges built.
Proof.
  induction ranges as [|[s e] ranges IH]; intros acc out; simpl.
  - split.
    + intros [= <-]. exists []. rewrite app_nil_r. split; [reflexivity|].
      constructor.
    + intros (built & -> & Hall). inversion Hall. rewrite app_nil_r.
      reflexivity.
  - destruct (PlayerRoundFrames.new parser s e sid) as [rf|err] eqn:Hnew;
      simpl.
    + rewrite IH. split.
      * intros (built & -> & Hall). exists (rf :: built).
        rewrite <- app_assoc. split; [reflexivity|].
        constructor; assumption.
      * intros (built & -> & Hall).
        inversion Hall as [|r' rf' ranges' built' Hhd Htl]; subst.
        simpl in Hhd. assert (rf' = rf) as -> by congruence.
        exists built'. rewrite <- app_assoc. split; [reflexivity|exact Htl].
    + split; [discriminate|].
      intros (built & _ & Hall). inversion Hall; simpl in *; congruence.
Qed.

(** The range loop raises the exception of the first range that fails to
    build. *)
Lemma parse_loop_first_failure {F} `{PyFloat F} (parser : DemoParser F)
    (sid : Z) (before after : list (Z * Z)) (s e : Z) (err : exn) :
  ∀ acc : list (PlayerRoundFrames.t F),
    Forall (λ r, is_Ok (PlayerRoundFrames.new parser r.1 r.2 sid)) before →
    PlayerRoundFrames.new parser s e sid = Raise err →
    PlayerPOVs.parse_loop parser sid (before ++ (s, e) :: after) acc
    = Raise err.
Proof.
  induction before as [|[s0 e0] before IH]; intros acc Hbefore Hfail; simpl.
  - rewrite Hfail. reflexivity.
  - apply Forall_cons in Hbefore as [[rf Hrf] Hbefore]. simpl in Hrf.
    rewrite Hrf. simpl. apply IH; assumption.
Qed.

(** What [PlayerPOVs(...)] returns, and when. *)
Lemma pov_new_spec {F} `{PyFloat F} (parser : DemoParser F) (sid : Z)
    (pov : PlayerPOVs.t F) :
  PlayerPOVs.new parser sid = Ok pov
  ↔ PlayerPOVs.demo_parser pov = parser
    ∧ PlayerPOVs.steamid pov = sid
    ∧ ∃ ranges,
        DemoPOVs.get_player_alive_ranges parser sid = Ok ranges
        ∧ Forall2 (λ r rf, PlayerRoundFrames.new parser r.1 r.2 sid = Ok rf)
            ranges (PlayerPOVs.round_frames pov).
Proof.
  unfold PlayerPOVs.new, PlayerPOVs._parse_round_frames.
  destruct (get_player_alive_ranges_Ok parser sid) as (collected & _ & Hget).
  rewrite Hget. simpl. split.
  - intros Hnew. apply bind_Ok in Hnew as (frames & Hloop & [= <-]).
    apply parse_loop_Ok_iff in Hloop as (built & -> & Hall). simpl.
    split; [reflexivity|]. split; [reflexivity|]. eauto.
  - intros (Hp & Hsid & ranges & [= <-] & Hall).
    destruct pov as [parser' sid' frames]. simpl in *. subst.
    assert (Hloop : PlayerPOVs.parse_loop parser sid
                      (DemoPOVs.within_max_len collected
                         (DemoPOVs.collected_kinds parser sid)) []
                    = Ok frames).
    { apply parse_loop_Ok_iff. exists frames. auto. }
    rewrite Hloop. reflexivity.
Qed.

(** X2: building a player's POV succeeds exactly when every range the
    extractor returns builds; the POV then keeps the parser and the player
    and holds one RoundFrames per returned range, in range order, each the
    result of building that range. *)
Theorem pov_Ok_iff {F} `{PyFloat F} (parser : DemoParser F) (sid : Z)
    (pov : PlayerPOVs.t F) :
  PlayerPOVs.new parser sid = Ok pov
  ↔ PlayerPOVs.demo_parser pov = parser
    ∧ PlayerPOVs.steamid pov = sid
    ∧ ∃ ranges,
        DemoPOVs.get_player_alive_ranges parser sid = Ok ranges
        ∧ Forall2 (λ r rf, PlayerRoundFrames.new parser r.1 r.2 sid = Ok rf)
            ranges (PlayerPOVs.round_frames pov).
Proof. apply pov_new_spec. Qed.

(** X3: if a returned range fails to build while all returned ranges
    before it build, constructing the player's POV raises that range's
    exception: the ranges built before it are dropped and the ranges after
    it are never tried. *)
Theorem pov_first_failure {F} `{PyFloat F} (parser : DemoParser F)
    (sid : Z) (before after : list (Z * Z)) (s e : Z) (err : exn) :
  DemoPOVs.get_player_alive_ranges parser sid
    = Ok (before ++ (s, e) :: after) →
  Forall (λ r, is_Ok (PlayerRoundFrames.new parser r.1 r.2 sid)) before →
  PlayerRoundFrames.new parser s e sid = Raise err →
  PlayerPOVs.new parser sid = Raise err.
Proof.
  intros Hget Hbefore Hfail.
  unfold PlayerPOVs.new, PlayerPOVs._parse_round_frames.
  rewrite Hget. simpl.
  rewrite (parse_loop_first_failure parser sid before after s e err [])
    by assumption.
  reflexivity.
Qed.

Lemma pov_first_failure_witness :
  PlayerPOVs.new
    (Fixture.liveliness_only [(10, true); (11, false)] []) Fixture.steamid
  = Raise (ValueError_not_found 10 Fixture.steamid).
Proof.
  apply (pov_first_failure _ Fixture.steamid [] [] 10 10).
  - vm_compute. reflexivity.
  - constructor.
  - vm_compute. reflexivity.
Defined.

(** X4: a POV that was built holds no frame.  It has one RoundFrames per
    returned range, in range order, each storing its range and the player,
    and every one of them has an empty frame sequence. *)
Theorem pov_holds_no_frame {F} `{PyFloat F} (parser : DemoParser F)
    (sid : Z) (pov : PlayerPOVs.t F) :
  PlayerPOVs.new parser sid = Ok pov →
  DemoPOVs.get_player_alive_ranges parser sid
  = Ok (map (λ rf, (PlayerRoundFrames.start_tick rf,
                    PlayerRoundFrames.end_tick rf))
          (PlayerPOVs.round_frames pov))
  ∧ Forall (λ rf,
              PlayerRoundFrames.steamid rf = sid
              ∧ PlayerRoundFrames.player_frames rf = [])
      (PlayerPOVs.round_frames pov).
Proof.
  intros Hnew. apply pov_new_spec in Hnew as (_ & _ & ranges & Hget & Hall).
  rewrite Hget. clear Hget.
  induction Hall as [|[s e] rf ranges frames Hrf Hall [IHr IHf]].
  - split; [reflexivity|constructor].
  - simpl in Hrf.
    apply round_frames_new_spec in Hrf as (Hs & He & Hsid & Hlen & Hframes).
    split.
    + simpl. rewrite Hs, He. injection IHr as ->. reflexivity.
    + constructor; [|exact IHf]. split; [exact Hsid|].
      destruct (Z_lt_le_dec e s) as [Hlt|Hle].
      * apply nil_length_inv. rewrite Hlen. lia.
      * exfalso. destruct (Hframes s ltac:(lia)) as (frame & Hframe & _).
        destruct (PlayerFrame_new_raises parser sid s) as [err Herr].
        congruence.
Qed.

Lemma pov_holds_no_frame_witness :
  let parser := Fixture.liveliness_only [(301, true)] [300] in
  ∃ pov,
    PlayerPOVs.new parser Fixture.steamid = Ok pov
    ∧ DemoPOVs.get_player_alive_ranges parser Fixture.steamid
      = Ok [(301, 300)]
    ∧ Forall (λ rf,
                PlayerRoundFrames.steamid rf = Fixture.steamid
                ∧ PlayerRoundFrames.player_frames rf = [])
        (PlayerPOVs.round_frames pov).
Proof.
  intros parser.
  exists {| PlayerPOVs.demo_parser := parser;
            PlayerPOVs.steamid := Fixture.steamid;
            PlayerPOVs.round_frames :=
              [ {| PlayerRoundFrames.start_tick := 301;
                   PlayerRoundFrames.end_tick := 300;
                   PlayerRoundFrames.steamid := Fixture.steamid;
                   PlayerRoundFrames.player_frames := [] |} ] |}.
  split; [vm_compute; reflexivity|].
  split; [vm_compute; reflexivity|].
  apply (pov_holds_no_frame parser Fixture.steamid).
  vm_compute. reflexivity.
Defined.

(** ** Outcomes of building one frame *)

Lemma player_frame_cases {F} `{PyFloat F} (parser : DemoParser F)
    (sid t : Z) :
  match parse_ticks_info parser sid t with
  | [] => PlayerFrame.new parser sid t = Raise (ValueError_not_found t sid)
  | irow :: _ =>
      match fclass (fsub (game_time irow) (round_start_time irow)) with
      | NaN => PlayerFrame.new parser sid t = Raise ValueError_int_conversion
      | Infinite =>
          PlayerFrame.new parser sid t = Raise OverflowError_int_conversion
      | Finite _ =>
          match parse_ticks_action parser sid t with
          | [] => PlayerFrame.new parser sid t
                  = Raise (ValueError_not_found t sid)
          | _ :: _ => PlayerFrame.new parser sid t
                      = Raise TypeError_takes_no_arguments
          end
      end
  end.
Proof.
  unfold PlayerFrame.new.
  pose proof (get_player_info_rows parser sid t) as Hinfo.
  pose proof (get_player_action_rows parser sid t) as Haction.
  destruct (parse_ticks_info parser sid t) as [|irow irest].
  - rewrite Hinfo. reflexivity.
  - rewrite Hinfo. pose proof (info_of_row_outcome irow t) as Hrow.
    destruct (fclass (fsub (game_time irow) (round_start_time irow)));
      rewrite Hrow; [|reflexivity..]. simpl.
    destruct (parse_ticks_action parser sid t); rewrite Haction; reflexivity.
Qed.

(** X5: the outcomes of building the frame of one tick; none of them is a
    frame.  The status query is decoded first: without a status row the
    not-found error for the queried tick and player is raised; with a
    status row whose round time is nan, ValueError; with one whose round
    time is infinite, OverflowError.  Only when the status frame is built
    is the action query issued: without an action row the not-found error
    is raised, and with one the constructor call of line 102 raises
    TypeError. *)
Theorem player_frame_outcomes {F} `{PyFloat F} (parser : DemoParser F)
    (sid t : Z) :
  match parse_ticks_info parser sid t with
  | [] => PlayerFrame.new parser sid t = Raise (ValueError_not_found t sid)
  | irow :: _ =>
      match fclass (fsub (game_time irow) (round_start_time irow)) with
      | NaN => PlayerFrame.new parser sid t = Raise ValueError_int_conversion
      | Infinite =>
          PlayerFrame.new parser sid t = Raise OverflowError_int_conversion
      | Finite _ =>
          match parse_ticks_action parser sid t with
          | [] => PlayerFrame.new parser sid t
                  = Raise (ValueError_not_found t sid)
          | _ :: _ => PlayerFrame.new parser sid t
                      = Raise TypeError_takes_no_arguments
          end
      end
  end.
Proof. apply player_frame_cases. Qed.

(** X6: a status frame that is decoded copies the first row of the status
    query field by field, has no picture path, carries the queried tick,
    and its time is the round time [game_time - round_start_time] of that
    row truncated toward zero: the integer at or just below a non-negative
    round time, the integer at or just above a negative one, which is left
    negative. *)
Theorem status_time_truncates_toward_zero {F} `{PyFloat F}
    (parser : DemoParser F) (sid t : Z) (frame : PlayerInfoFrame.t) :
  PlayerInfoFrame.get_player_info parser sid t = Ok frame →
  ∃ row rest q,
    parse_ticks_info parser sid t = row :: rest
    ∧ fclass (fsub (game_time row) (round_start_time row)) = Finite q
    ∧ ((0 <= q)%Q →
       (inject_Z (PlayerInfoFrame.time frame) <= q)%Q
       ∧ (q < inject_Z (PlayerInfoFrame.time frame + 1))%Q)
    ∧ ((q < 0)%Q →
       (inject_Z (PlayerInfoFrame.time frame - 1) < q)%Q
       ∧ (q <= inject_Z (PlayerInfoFrame.time frame))%Q)
    ∧ PlayerInfoFrame.tick frame = t
    ∧ PlayerInfoFrame.pic_path frame = None
    ∧ PlayerInfoFrame.hp frame = health row
    ∧ PlayerInfoFrame.team frame = ir_team_num row
    ∧ PlayerInfoFrame.weapon frame = ir_active_weapon row
    ∧ PlayerInfoFrame.round frame = total_rounds_played row
    ∧ PlayerInfoFrame.armor frame = armor_value row
    ∧ PlayerInfoFrame.money frame = balance row
    ∧ PlayerInfoFrame.player_name frame = ir_player_name row
    ∧ PlayerInfoFrame.steamid frame = ir_player_steamid row.
Proof.
  intros Hget. pose proof (get_player_info_rows parser sid t) as Hrows.
  destruct (parse_ticks_info parser sid t) as [|row rest]; [congruence|].
  rewrite Hrows in Hget. pose proof (info_of_row_outcome row t) as Hrow.
  destruct (fclass (fsub (game_time row) (round_start_time row))) as [q| |]
    eqn:Hq; [|congruence..].
  exists row, rest, q. rewrite Hrow in Hget. injection Hget as <-. simpl.
  split; [reflexivity|]. split; [exact Hq|].
  split; [intros Hpos; apply Qtrunc_nonneg, Hpos|].
  split; [intros Hneg; apply Qtrunc_neg, Hneg|].
  repeat split.
Qed.

Lemma status_time_truncates_toward_zero_witness :
  ∃ frame,
    PlayerInfoFrame.get_player_info Fixture.three_ticks Fixture.steamid 10
    = Ok frame
    ∧ PlayerInfoFrame.time frame = -2
    ∧ ∃ row rest q,
        parse_ticks_info Fixture.three_ticks Fixture.steamid 10 = row :: rest
        ∧ fclass (fsub (game_time row) (round_start_time row)) = Finite q
        ∧ ((q < 0)%Q →
           (inject_Z (PlayerInfoFrame.time frame - 1) < q)%Q
           ∧ (q <= inject_Z (PlayerInfoFrame.time frame))%Q).
Proof.
  destruct (PlayerInfoFrame.get_player_info Fixture.three_ticks
              Fixture.steamid 10) as [frame|e] eqn:Hget;
    [|vm_compute in Hget; discriminate].
  exists frame. split; [reflexivity|].
  split; [vm_compute in Hget; injection Hget as <-; reflexivity|].
  destruct (status_time_truncates_toward_zero Fixture.three_ticks
              Fixture.steamid 10 frame Hget)
    as (row & rest & q & Hrows & Hq & _ & Hneg & _).
  exists row, rest, q. auto.
Defined.

(** X7: a range that is not empty is never built.  For [start <= end]
    (with [end + 1] computed exactly, also where [end] is a 64-bit
    integer) the assembler raises the exception of its first tick, which
    is the not-found error for that tick and player, one of the two
    conversion errors, or TypeError; no tick after the first is queried. *)
Theorem nonempty_range_never_builds {F} `{PyFloat F}
    (parser : DemoParser F) (start end_ sid : Z) :
  start ≤ end_ →
  end_ < 2 ^ 63 - 1 →
  ∃ e,
    PlayerFrame.new parser sid start = Raise e
    ∧ PlayerRoundFrames.new parser start end_ sid = Raise e
    ∧ ¬ is_Ok (PlayerRoundFrames.new parser start end_ sid)
    ∧ (e = ValueError_not_found start sid
       ∨ e = ValueError_int_conversion
       ∨ e = OverflowError_int_conversion
       ∨ e = TypeError_takes_no_arguments).
Proof.
  intros Hle _.
  destruct (round_frames_first_tick_raises parser start end_ sid Hle)
    as (e & He & Hnew).
  exists e. split; [exact He|]. split; [exact Hnew|].
  split; [rewrite Hnew; apply is_Ok_Raise|].
  pose proof (player_frame_cases parser sid start) as Hcases.
  destruct (parse_ticks_info parser sid start) as [|irow irest];
    [left; congruence|].
  destruct (fclass (fsub (game_time irow) (round_start_time irow)));
    [|right; left; congruence|right; right; left; congruence].
  destruct (parse_ticks_action parser sid start);
    [left; congruence|right; right; right; congruence].
Qed.

Lemma nonempty_range_never_builds_witness :
  PlayerFrame.new Fixture.three_ticks Fixture.steamid 10
  = Raise TypeError_takes_no_arguments
  ∧ PlayerRoundFrames.new Fixture.three_ticks 10 12 Fixture.steamid
    = Raise TypeError_takes_no_arguments.
Proof.
  destruct (nonempty_range_never_builds Fixture.three_ticks 10 12
              Fixture.steamid) as (e & He & Hnew & _ & _).
  - lia.
  - lia.
  - assert (Hte : PlayerFrame.new Fixture.three_ticks Fixture.steamid 10
                  = Raise TypeError_takes_no_arguments)
      by (vm_compute; reflexivity).
    rewrite Hte in He. injection He as <-. split; [exact Hte|exact Hnew].
Defined.

(** ** The collection of all players *)

Lemma py_str_inj (a b : Z) : py_str a = py_str b → a = b.
Proof. unfold py_str. apply (inj pretty). Qed.

(** The roster loop when every player builds: each roster player is stored
    under the decimal string of its id, and no other key is touched. *)
Lemma init_loop_Ok {F} `{PyFloat F} (parser : DemoParser F)
    (roster : list Z) :
  ∀ acc : gmap string (PlayerPOVs.t F),
    Forall (λ sid, is_Ok (PlayerPOVs.new parser sid)) roster →
    ∃ m,
      DemoPOVsObject.init_loop parser roster acc = Ok m
      ∧ (∀ sid pov, sid ∈ roster → PlayerPOVs.new parser sid = Ok pov →
                    m !! py_str sid = Some pov)
      ∧ (∀ key, (∀ sid, sid ∈ roster → py_str sid ≠ key) →
                m !! key = acc !! key).
Proof.
  induction roster as [|s roster IH]; intros acc Hall; simpl.
  - exists acc. split; [reflexivity|]. split; [|reflexivity].
    intros sid pov Hin. inversion Hin.
  - apply Forall_cons in Hall as [[pov_s Hs] Hall]. rewrite Hs. simpl.
    destruct (IH (<[py_str s := pov_s]> acc) Hall) as (m & Hm & Hin & Hout).
    exists m. split; [exact Hm|]. split.
    + intros sid pov Hsid Hpov.
      destruct (decide (sid ∈ roster)) as [Hrest|Hrest]; [auto|].
      apply elem_of_cons in Hsid as [->|Hsid]; [|contradiction].
      rewrite Hout.
      * rewrite lookup_insert_eq. congruence.
      * intros sid' Hsid' Heq. apply py_str_inj in Heq. congruence.
    + intros key Hkey. rewrite Hout.
      * apply lookup_insert_ne. apply Hkey. left.
      * intros sid Hsid. apply Hkey. right. exact Hsid.
Qed.

Lemma init_loop_first_failure {F} `{PyFloat F} (parser : DemoParser F)
    (before after : list Z) (sid : Z) (err : exn) :
  ∀ acc : gmap string (PlayerPOVs.t F),
    Forall (λ sid', is_Ok (PlayerPOVs.new parser sid')) before →
    PlayerPOVs.new parser sid = Raise err →
    DemoPOVsObject.init_loop parser (before ++ sid :: after) acc = Raise err.
Proof.
  induction before as [|s before IH]; intros acc Hbefore Hfail; simpl.
  - rewrite Hfail. reflexivity.
  - apply Forall_cons in Hbefore as [[pov Hs] Hbefore].
    rewrite Hs. simpl. apply IH; assumption.
Qed.

(** X8: when the POV of every roster player builds, [DemoPOVs(path)]
    succeeds; it keeps the path and the parser, and its [players] map has
    exactly the decimal strings of the roster ids as keys, each mapped to
    the POV built for that id (a repeated id gives one entry).  An empty
    roster gives an empty map. *)
Theorem demo_povs_Ok {F} `{PyFloat F} (open_demo : string → Demo F)
    (path : string) :
  let parser := demo_parser_of (open_demo path) in
  let roster := parse_player_info (open_demo path) in
  (∀ sid, sid ∈ roster → is_Ok (PlayerPOVs.new parser sid)) →
  ∃ povs,
    DemoPOVsObject.new open_demo path = Ok povs
    ∧ DemoPOVsObject.demo_path povs = path
    ∧ DemoPOVsObject.demo_parser povs = parser
    ∧ (∀ sid pov,
         DemoPOVsObject.players povs !! py_str sid = Some pov
         ↔ sid ∈ roster ∧ PlayerPOVs.new parser sid = Ok pov)
    ∧ (∀ key,
         is_Some (DemoPOVsObject.players povs !! key)
         ↔ ∃ sid, sid ∈ roster ∧ key = py_str sid)
    ∧ (roster = [] → DemoPOVsObject.players povs = ∅).
Proof.
  intros parser roster Hall.
  destruct (init_loop_Ok parser roster ∅) as (m & Hm & Hin & Hout).
  { apply Forall_forall. exact Hall. }
  assert (Hkeys : ∀ key,
            is_Some (m !! key) ↔ ∃ sid, sid ∈ roster ∧ key = py_str sid).
  { intros key. split.
    - intros Hsome.
      destruct (decide (Exists (λ sid, py_str sid = key) roster))
        as [Hex|Hnex].
      + apply Exists_exists in Hex as (sid & Hsid & <-). eauto.
      + rewrite Hout, lookup_empty in Hsome.
        * destruct Hsome as [pov Hpov]. discriminate.
        * intros sid Hsid Heq. apply Hnex, Exists_exists. eauto.
    - intros (sid & Hsid & ->). destruct (Hall sid Hsid) as [pov Hpov].
      rewrite (Hin sid pov Hsid Hpov). eauto. }
  exists {| DemoPOVsObject.demo_path := path;
            DemoPOVsObject.demo_parser := parser;
            DemoPOVsObject.players := m |}.
  unfold DemoPOVsObject.new, DemoPOVsObject._init_players.
  fold parser roster. rewrite Hm. simpl.
  split; [reflexivity|]. split; [reflexivity|]. split; [reflexivity|].
  split; [|split; [exact Hkeys|]].
  - intros sid pov. split.
    + intros Hlook.
      assert (Hsome : is_Some (m !! py_str sid)) by eauto.
      apply Hkeys in Hsome as (sid' & Hsid' & Heq).
      apply py_str_inj in Heq as <-. split; [exact Hsid'|].
      destruct (Hall sid Hsid') as [pov' Hpov'].
      rewrite (Hin sid pov' Hsid' Hpov') in Hlook. congruence.
    + intros [Hsid Hpov]. auto.
  - intros Hnil. apply map_empty. intros key.
    destruct (m !! key) as [pov|] eqn:Hkey; [|reflexivity].
    assert (Hsome : is_Some (m !! key)) by eauto.
    apply Hkeys in Hsome as (sid & Hsid & _).
    rewrite Hnil in Hsid. inversion Hsid.
Qed.

Lemma demo_povs_Ok_witness :
  let parser := Fixture.liveliness_only [(301, true)] [300] in
  ∃ povs pov,
    DemoPOVsObject.new DemoFixture.open_demo "match.dem" = Ok povs
    ∧ DemoPOVsObject.players povs !! py_str Fixture.steamid = Some pov
    ∧ PlayerPOVs.new parser Fixture.steamid = Ok pov
    ∧ map PlayerRoundFrames.player_frames (PlayerPOVs.round_frames pov)
      = [[]].
Proof.
  intros parser.
  destruct (demo_povs_Ok DemoFixture.open_demo "match.dem")
    as (povs & Hnew & _ & _ & Hlook & _).
  - intros sid Hsid. simpl in Hsid.
    apply elem_of_cons in Hsid as [->|Hsid].
    + eexists. vm_compute. reflexivity.
    + apply list_elem_of_singleton in Hsid as ->.
      eexists. vm_compute. reflexivity.
  - destruct (PlayerPOVs.new parser Fixture.steamid)
      as [pov|] eqn:Hpov; [|vm_compute in Hpov; discriminate].
    exists povs, pov. split; [exact Hnew|].
    split; [apply Hlook; split; [left|exact Hpov]|].
    split; [reflexivity|].
    vm_compute in Hpov. injection Hpov as <-. reflexivity.
Defined.

(** X9: if the POV of one roster player fails to build while the players
    listed before it build, [DemoPOVs(path)] raises that player's
    exception: no collection is returned, not even for the players that
    built, and the players listed after it are never tried. *)
Theorem demo_povs_first_failure {F} `{PyFloat F}
    (open_demo : string → Demo F) (path : string)
    (before after : list Z) (sid : Z) (err : exn) :
  let parser := demo_parser_of (open_demo path) in
  parse_player_info (open_demo path) = before ++ sid :: after →
  Forall (λ sid', is_Ok (PlayerPOVs.new parser sid')) before →
  PlayerPOVs.new parser sid = Raise err →
  DemoPOVsObject.new open_demo path = Raise err.
Proof.
  intros parser Hroster Hbefore Hfail.
  unfold DemoPOVsObject.new, DemoPOVsObject._init_players.
  fold parser. rewrite Hroster.
  rewrite (init_loop_first_failure parser before after sid err ∅)
    by assumption.
  reflexivity.
Qed.

Lemma demo_povs_first_failure_witness :
  DemoPOVsObject.new DemoFixture.open_without_frames "match.dem"
  = Raise (ValueError_not_found 10 Fixture.steamid).
Proof.
  apply (demo_povs_first_failure DemoFixture.open_without_frames
           "match.dem" [8] [9] Fixture.steamid).
  - reflexivity.
  - apply Forall_cons_2; [|apply Forall_nil_2].
    eexists. vm_compute. reflexivity.
  - vm_compute. reflexivity.
Defined.

(** ** Where the extracted ranges come from *)

Lemma round_end_ticks_elem (round_end_df : list Z) (boundary m : Z) :
  m ∈ DemoPOVs.round_end_ticks round_end_df boundary
  ↔ m ∈ round_end_df ∧ boundary < m.
Proof.
  unfold DemoPOVs.round_end_ticks.
  rewrite !list_elem_of_In, filter_In, Z.ltb_lt. reflexivity.
Qed.

Lemma loop_body_provenance (round_end_df : list Z)
    (player_data : list TickRow) (st : DemoPOVs.loop_state)
    (row : TickRow) :
  row ∈ player_data →
  provenance_inv round_end_df player_data st →
  provenance_inv round_end_df player_data
    (DemoPOVs.loop_body round_end_df st row).
Proof.
  intros Hrow [Hpending Hranges].
  assert (Hmid : provenance_inv round_end_df player_data
            (DemoPOVs.check_round_end round_end_df (tr_index row) st)).
  { unfold DemoPOVs.check_round_end.
    destruct (DemoPOVs.round_end_ticks _ _) as [|f rest] eqn:Hticks;
      [constructor; assumption|].
    destruct (f <? tr_index row); [|constructor; assumption].
    assert (Hf : f ∈ round_end_df).
    { apply (round_end_ticks_elem _ (DemoPOVs.last_round_end_tick st)).
      rewrite Hticks. left. }
    constructor; simpl; [discriminate|].
    destruct (DemoPOVs.start_tick st) as [s|]; [|exact Hranges].
    intros s' e' Hin. apply elem_of_app in Hin as [Hin|Hin]; [auto|].
    apply list_elem_of_singleton in Hin. injection Hin as -> ->. auto. }
  clear Hpending Hranges. destruct Hmid as [Hpending Hranges].
  unfold DemoPOVs.loop_body, DemoPOVs.check_alive.
  destruct (tr_is_alive row) eqn:Halive,
    (DemoPOVs.start_tick (DemoPOVs.check_round_end _ _ _)) as [s|] eqn:Hs;
    try (constructor;
         [intros s0 Hs0; apply Hpending; congruence | assumption]).
  - constructor; simpl; [|exact Hranges].
    intros s' [= <-]. exists row. auto.
  - constructor; simpl; [discriminate|].
    intros s' e' Hin. apply elem_of_app in Hin as [Hin|Hin]; [auto|].
    apply list_elem_of_singleton in Hin. injection Hin as -> ->.
    split; [auto|]. right. exists row.
    split; [exact Hrow|]. split; [lia|exact Halive].
Qed.

Lemma fold_provenance (round_end_df : list Z) (player_data : list TickRow)
    (rows : list TickRow) :
  ∀ st,
    (∀ row, row ∈ rows → row ∈ player_data) →
    provenance_inv round_end_df player_data st →
    provenance_inv round_end_df player_data
      (fold_left (DemoPOVs.loop_body round_end_df) rows st).
Proof.
  induction rows as [|row rows IH]; intros st Hsub Hinv; [exact Hinv|].
  simpl. apply IH.
  - intros row' Hrow'. apply Hsub. right. exact Hrow'.
  - apply loop_body_provenance; [apply Hsub; left|exact Hinv].
Qed.

Lemma run_loop_provenance (round_end_df : list Z)
    (player_data : list TickRow) :
  provenance_inv round_end_df player_data
    (DemoPOVs.run_loop round_end_df player_data).
Proof.
  apply fold_provenance; [auto|].
  constructor; simpl; [discriminate|].
  intros s e Hin. inversion Hin.
Qed.

(** X10: every range the extractor returns starts at the tick of a sample
    of the player that says alive.  It ends at a round-end marker, or one
    tick before a sample of the player that says not alive, or, only when
    the round-end table is empty, at the player's last sample tick. *)
Theorem ranges_provenance {F} (parser : DemoParser F) (sid : Z) :
  let round_end_df := parse_event_round_end parser in
  let player_data :=
    DemoPOVs.player_data_of (parse_ticks_alive parser) sid in
  ∃ ranges,
    DemoPOVs.get_player_alive_ranges parser sid = Ok ranges
    ∧ ∀ s e, (s, e) ∈ ranges →
        alive_at player_data s
        ∧ (e ∈ round_end_df
           ∨ dead_at player_data (e + 1)
           ∨ (round_end_df = []
              ∧ last (map tr_index player_data) = Some e)).
Proof.
  intros round_end_df player_data.
  destruct (get_player_alive_ranges_Ok parser sid) as (collected & Hc & Hg).
  exists (DemoPOVs.within_max_len collected
            (DemoPOVs.collected_kinds parser sid)).
  split; [exact Hg|].
  intros s e Hin. apply within_max_len_elem in Hin.
  unfold DemoPOVs.collected_alive_ranges in Hc.
  fold round_end_df player_data in Hc.
  destruct (run_loop_provenance round_end_df player_data)
    as [Hpending Hranges].
  destruct (DemoPOVs.start_tick
              (DemoPOVs.run_loop round_end_df player_data))
    as [s0|] eqn:Hs.
  - (* a range is still open after the pass *)
    destruct (close_last_open _ _ _ _ _ Hs Hc) as (e0 & -> & Hlast & Hnone).
    apply elem_of_app in Hin as [Hin|Hin].
    + destruct (Hranges s e Hin) as [Hstart Hend].
      split; [exact Hstart|]. tauto.
    + apply list_elem_of_singleton in Hin. injection Hin as -> ->.
      split; [auto|].
      destruct (decide (round_end_df = [])) as [Hnil|Hne]; [auto|].
      left. apply last_Some in Hlast as [l' ->]; [|exact Hne].
      apply elem_of_app. right. left.
  - (* nothing is open after the pass *)
    unfold DemoPOVs.close_last in Hc. rewrite Hs in Hc.
    injection Hc as <-.
    destruct (Hranges s e Hin) as [Hstart Hend].
    split; [exact Hstart|]. tauto.
Qed.

(** ** Well-formed ranges under dense sampling *)

Section DenseSampling.

Variable round_end_df : list Z.
Hypothesis markers_sorted : StronglySorted Z.lt round_end_df.

Lemma dense_check_round_end (T t : Z) (st : DemoPOVs.loop_state) :
  dense_inv round_end_df T st →
  T < t →
  (∀ m1 m2, m1 ∈ round_end_df → m2 ∈ round_end_df →
            0 < m1 → T ≤ m1 → m1 < m2 → m2 < t → False) →
  let st1 := DemoPOVs.check_round_end round_end_df t st in
  dense_inv round_end_df t st1
  ∧ ∀ s, DemoPOVs.start_tick st1 = Some s → s < t.
Proof.
  intros [Hb Hm Hp Hwf] Hlt Hstep. simpl.
  unfold DemoPOVs.check_round_end.
  destruct (DemoPOVs.round_end_ticks round_end_df
              (DemoPOVs.last_round_end_tick st)) as [|f rest] eqn:Hticks.
  - (* no marker is left after the boundary *)
    pose proof (round_end_ticks_none _ _ Hticks) as Hnone.
    split; [constructor; try assumption|].
    + intros m Hin HL. specialize (Hnone m Hin). lia.
    + intros s Hs. specialize (Hp s Hs). lia.
    + intros s Hs. specialize (Hp s Hs). lia.
  - destruct (round_end_ticks_first _ markers_sorted _ _ _ Hticks)
      as [HLf Hmin].
    assert (Hf : f ∈ round_end_df).
    { apply (round_end_ticks_elem _ (DemoPOVs.last_round_end_tick st)).
      rewrite Hticks. left. }
    destruct (f <? t) eqn:Hcross.
    + (* the boundary is crossed at [f] *)
      apply Z.ltb_lt in Hcross.
      split; [constructor; simpl|simpl; discriminate].
      * lia.
      * intros m Hin Hfm.
        destruct (Z_lt_le_dec m t) as [Hmt|Hmt]; [|exact Hmt].
        exfalso. apply (Hstep f m Hf Hin); try lia.
        apply Hm; [exact Hf|exact HLf].
      * discriminate.
      * destruct (DemoPOVs.start_tick st) as [s|] eqn:Hs; [|exact Hwf].
        apply Forall_app. split; [exact Hwf|].
        apply Forall_cons_2; [|apply Forall_nil_2].
        unfold well_formed_range. simpl.
        specialize (Hp s eq_refl). specialize (Hm f Hf HLf). lia.
    + (* the next marker is not passed yet *)
      apply Z.ltb_ge in Hcross.
      split; [constructor; try assumption|].
      * intros m Hin HL. specialize (Hmin m Hin HL). lia.
      * intros s Hs. specialize (Hp s Hs). lia.
      * intros s Hs. specialize (Hp s Hs). lia.
Qed.

Lemma dense_loop_body (T : Z) (st : DemoPOVs.loop_state) (row : TickRow) :
  dense_inv round_end_df T st →
  T < tr_index row →
  (∀ m1 m2, m1 ∈ round_end_df → m2 ∈ round_end_df →
            0 < m1 → T ≤ m1 → m1 < m2 → m2 < tr_index row → False) →
  dense_inv round_end_df (tr_index row)
    (DemoPOVs.loop_body round_end_df st row).
Proof.
  intros Hinv Hlt Hstep.
  destruct (dense_check_round_end T (tr_index row) st Hinv Hlt Hstep)
    as [[Hb Hm Hp Hwf] Hbefore].
  unfold DemoPOVs.loop_body, DemoPOVs.check_alive.
  set (st1 := DemoPOVs.check_round_end round_end_df (tr_index row) st) in *.
  destruct (tr_is_alive row), (DemoPOVs.start_tick st1) as [s|] eqn:Hs.
  - (* alive, a range is pending *)
    constructor; try assumption. intros s0 Hs0. apply Hp. congruence.
  - (* alive, nothing pending: a range opens *)
    constructor; simpl; try assumption. intros s [= <-]. lia.
  - (* not alive, a range is pending: it closes one tick earlier *)
    constructor; simpl; try assumption; [discriminate|].
    apply Forall_app. split; [exact Hwf|].
    apply Forall_cons_2; [|apply Forall_nil_2].
    unfold well_formed_range. simpl. specialize (Hbefore s eq_refl). lia.
  - (* not alive, nothing pending *)
    constructor; try assumption. intros s0 Hs0. congruence.
Qed.

Lemma dense_fold (player_data : list TickRow) :
  ∀ (T : Z) (st : DemoPOVs.loop_state),
    dense_inv round_end_df T st →
    StronglySorted Z.lt (T :: map tr_index player_data) →
    one_round_end_per_step round_end_df T (map tr_index player_data) →
    dense_inv round_end_df (default T (last (map tr_index player_data)))
      (fold_left (DemoPOVs.loop_body round_end_df) player_data st).
Proof.
  induction player_data as [|row rows IH]; intros T st Hinv Hsorted Hdense;
    [exact Hinv|].
  simpl map in *. simpl fold_left.
  rewrite last_default_cons.
  apply StronglySorted_cons in Hsorted as [Hall Hsorted].
  apply Forall_cons in Hall as [Hlt _].
  destruct Hdense as [Hstep Hdense].
  apply IH; [|exact Hsorted|exact Hdense].
  apply (dense_loop_body T); assumption.
Qed.

Lemma dense_init : dense_inv round_end_df (-1) DemoPOVs.init_state.
Proof.
  constructor; simpl.
  - lia.
  - intros m _ Hm. lia.
  - discriminate.
  - constructor.
Qed.

End DenseSampling.

(** X11: when the player's sample ticks are non-negative and strictly
    increasing, the round-end markers strictly increase, and no two
    positive markers lie between one sample and the next (nor before the
    first sample), every returned range closed during the pass has
    [start <= end]: a returned range with [start > end] can only be the
    one closed after the pass at the last marker.  If moreover the
    player's last sample is not past the last marker, every returned range
    has [start <= end]. *)
Theorem ranges_well_formed_when_dense {F} (parser : DemoParser F)
    (sid : Z) :
  let round_end_df := parse_event_round_end parser in
  let player_data :=
    DemoPOVs.player_data_of (parse_ticks_alive parser) sid in
  tick_sorted player_data →
  StronglySorted Z.lt round_end_df →
  one_round_end_per_step round_end_df (-1) (map tr_index player_data) →
  ∃ ranges,
    DemoPOVs.get_player_alive_ranges parser sid = Ok ranges
    ∧ (∀ r, r ∈ ranges →
            well_formed_range r
            ∨ (DemoPOVs.start_tick
                 (DemoPOVs.run_loop round_end_df player_data) = Some r.1
               ∧ last round_end_df = Some r.2))
    ∧ ((∀ last_marker last_tick,
          last round_end_df = Some last_marker →
          last (map tr_index player_data) = Some last_tick →
          last_tick ≤ last_marker) →
       Forall well_formed_range ranges).
Proof.
  intros round_end_df player_data Hticks Hmarkers Hdense.
  destruct (get_player_alive_ranges_Ok parser sid) as (collected & Hc & Hg).
  exists (DemoPOVs.within_max_len collected
            (DemoPOVs.collected_kinds parser sid)).
  split; [exact Hg|].
  unfold DemoPOVs.collected_alive_ranges in Hc.
  fold round_end_df player_data in Hc.
  pose proof (dense_fold round_end_df Hmarkers player_data (-1)
                DemoPOVs.init_state (dense_init round_end_df)
                (tick_sorted_from _ Hticks) Hdense) as Hinv.
  fold (DemoPOVs.run_loop round_end_df player_data) in Hinv.
  set (st := DemoPOVs.run_loop round_end_df player_data) in *.
  destruct Hinv as [Hb Hm Hp Hwf]. rewrite Forall_forall in Hwf.
  destruct (DemoPOVs.start_tick st) as [s|] eqn:Hs.
  - destruct (close_last_open _ _ _ _ _ Hs Hc) as (e & -> & Hlast & Hnone).
    specialize (Hp s eq_refl).
    assert (Hdata : ∃ T, last (map tr_index player_data) = Some T).
    { destruct (last (map tr_index player_data)) as [T|] eqn:HT; [eauto|].
      apply last_None in HT. destruct player_data; [|discriminate].
      discriminate Hs. }
    destruct Hdata as [T HT]. rewrite HT in Hp. simpl in Hp.
    assert (Hfinal : round_end_df = [] → well_formed_range (s, e)).
    { intros Hnil. specialize (Hnone Hnil).
      unfold well_formed_range. simpl. congruence. }
    split.
    + intros r Hin.
      apply within_max_len_elem, elem_of_app in Hin as [Hin|Hin];
        [left; auto|].
      apply list_elem_of_singleton in Hin as ->.
      destruct (decide (round_end_df = [])) as [Hnil|Hne]; [left; auto|].
      right. simpl. auto.
    + intros Hreach. apply Forall_forall. intros r Hin.
      apply within_max_len_elem, elem_of_app in Hin as [Hin|Hin]; [auto|].
      apply list_elem_of_singleton in Hin as ->.
      destruct (decide (round_end_df = [])) as [Hnil|Hne]; [auto|].
      specialize (Hreach e T (Hlast Hne) HT).
      unfold well_formed_range. simpl. lia.
  - unfold DemoPOVs.close_last in Hc. rewrite Hs in Hc.
    injection Hc as <-. fold st. split.
    + intros r Hin. left. apply within_max_len_elem in Hin. auto.
    + intros _. apply Forall_forall. intros r Hin.
      apply within_max_len_elem in Hin. auto.
Qed.

Lemma ranges_well_formed_when_dense_witness :
  let samples := [(100, true); (200, true); (301, true); (302, false)] in
  let parser := Fixture.liveliness_only samples [300; 400] in
  ∃ ranges,
    DemoPOVs.get_player_alive_ranges parser Fixture.steamid = Ok ranges
    ∧ Forall well_formed_range ranges.
Proof.
  intros samples parser.
  assert (Hmarkers : ∀ m1 m2 : Z,
            m1 ∈ [300; 400] → m2 ∈ [300; 400] → m1 < m2 →
            m1 = 300 ∧ m2 = 400).
  { intros m1 m2 H1 H2 Hlt.
    apply elem_of_cons in H1 as [->|H1], H2 as [->|H2];
      try apply list_elem_of_singleton in H1 as ->;
      try apply list_elem_of_singleton in H2 as ->; lia. }
  destruct (ranges_well_formed_when_dense parser Fixture.steamid)
    as (ranges & Hget & _ & Hwf).
  - split; simpl.
    + repeat (apply SSorted_cons || apply SSorted_nil
              || apply Forall_cons_2 || apply Forall_nil_2); lia.
    + repeat (apply Forall_cons_2 || apply Forall_nil_2); simpl; lia.
  - simpl.
    repeat (apply SSorted_cons || apply SSorted_nil
            || apply Forall_cons_2 || apply Forall_nil_2); lia.
  - simpl. repeat split;
      intros m1 m2 H1 H2 Hpos Hprev Hlt Hnext;
      destruct (Hmarkers m1 m2 H1 H2 Hlt) as [-> ->]; lia.
  - exists ranges. split; [exact Hget|]. apply Hwf.
    intros last_marker last_tick [= <-] [= <-]. lia.
Defined.

(** ** Samples inside the extracted ranges *)

Lemma loop_body_alive_inside (round_end_df : list Z) (seen : list TickRow)
    (st : DemoPOVs.loop_state) (row : TickRow) :
  alive_inside_inv seen st →
  (∀ row', row' ∈ seen → tr_index row' < tr_index row) →
  alive_inside_inv (seen ++ [row]) (DemoPOVs.loop_body round_end_df st row).
Proof.
  intros [Hpending Hranges Hpast] Hnew.
  unfold DemoPOVs.loop_body.
  set (t := tr_index row) in *.
  set (st1 := DemoPOVs.check_round_end round_end_df t st).
  (* after the boundary check: the sample at [t] lies after every range *)
  assert (Hmid :
    (∀ s row', DemoPOVs.start_tick st1 = Some s → row' ∈ seen →
               s ≤ tr_index row' → tr_is_alive row' = true)
    ∧ (∀ s e row', (s, e) ∈ DemoPOVs.alive_ranges st1 → row' ∈ seen →
                   s ≤ tr_index row' → tr_index row' ≤ e →
                   tr_is_alive row' = true)
    ∧ (∀ s e, (s, e) ∈ DemoPOVs.alive_ranges st1 → e < t)).
  { assert (Hout : ∀ s e, (s, e) ∈ DemoPOVs.alive_ranges st → e < t).
    { intros s e Hin. destruct (Hpast s e Hin) as (row' & Hrow' & He).
      specialize (Hnew row' Hrow'). lia. }
    subst st1. unfold DemoPOVs.check_round_end.
    destruct (DemoPOVs.round_end_ticks _ _) as [|f rest]; [auto|].
    destruct (f <? t) eqn:Hcross; [|auto].
    apply Z.ltb_lt in Hcross. simpl.
    split; [discriminate|].
    destruct (DemoPOVs.start_tick st) as [s|] eqn:Hs; [|auto].
    split.
    - intros s' e' row' Hin Hrow' Hlo Hhi.
      apply elem_of_app in Hin as [Hin|Hin]; [eauto|].
      apply list_elem_of_singleton in Hin. injection Hin as -> ->. eauto.
    - intros s' e' Hin.
      apply elem_of_app in Hin as [Hin|Hin]; [eauto|].
      apply list_elem_of_singleton in Hin. injection Hin as -> ->.
      exact Hcross. }
  clearbody st1. clear Hpending Hranges Hpast.
  destruct Hmid as (Hpending & Hranges & Hout).
  assert (Hlast : row ∈ seen ++ [row])
    by (apply elem_of_app; right; left).
  (* what the boundary check left holds for the samples with [row] too *)
  assert (Hranges' : ∀ s e row',
            (s, e) ∈ DemoPOVs.alive_ranges st1 → row' ∈ seen ++ [row] →
            s ≤ tr_index row' → tr_index row' ≤ e →
            tr_is_alive row' = true).
  { intros s e row' Hin Hrow' Hlo Hhi.
    apply elem_of_app in Hrow' as [Hrow'|Hrow']; [eauto|].
    apply list_elem_of_singleton in Hrow' as ->.
    specialize (Hout s e Hin). fold t in Hhi. lia. }
  assert (Hpast' : ∀ s e, (s, e) ∈ DemoPOVs.alive_ranges st1 →
                          ∃ row', row' ∈ seen ++ [row] ∧ e ≤ tr_index row').
  { intros s e Hin. exists row. split; [exact Hlast|].
    specialize (Hout s e Hin). fold t. lia. }
  unfold DemoPOVs.check_alive.
  destruct (tr_is_alive row) eqn:Halive,
    (DemoPOVs.start_tick st1) as [s|] eqn:Hs.
  - (* alive, a range is pending *)
    constructor; try assumption.
    intros s' row' Hs' Hrow' Hlo.
    apply elem_of_app in Hrow' as [Hrow'|Hrow'].
    + apply (Hpending s' row'); [congruence|assumption..].
    + apply list_elem_of_singleton in Hrow' as ->. exact Halive.
  - (* alive, nothing pending: a range opens at [t] *)
    constructor; simpl; try assumption.
    intros s' row' [= <-] Hrow' Hlo.
    apply elem_of_app in Hrow' as [Hrow'|Hrow'].
    + specialize (Hnew row' Hrow'). lia.
    + apply list_elem_of_singleton in Hrow' as ->. exact Halive.
  - (* not alive, a range is pending: it closes at [t - 1] *)
    constructor; simpl; [discriminate| |].
    + intros s' e' row' Hin Hrow' Hlo Hhi.
      apply elem_of_app in Hin as [Hin|Hin]; [eauto|].
      apply list_elem_of_singleton in Hin. injection Hin as Hs' He'.
      subst s' e'.
      apply elem_of_app in Hrow' as [Hrow'|Hrow'].
      * apply (Hpending s row'); auto.
      * apply list_elem_of_singleton in Hrow' as ->. fold t in Hhi. lia.
    + intros s' e' Hin.
      apply elem_of_app in Hin as [Hin|Hin]; [eauto|].
      apply list_elem_of_singleton in Hin. injection Hin as -> ->.
      exists row. split; [exact Hlast|]. fold t. lia.
  - (* not alive, nothing pending *)
    constructor; try assumption.
    intros s' row' Hs'. congruence.
Qed.

Lemma fold_alive_inside (round_end_df : list Z) (rows : list TickRow) :
  ∀ (seen : list TickRow) (st : DemoPOVs.loop_state),
    alive_inside_inv seen st →
    StronglySorted Z.lt (map tr_index (seen ++ rows)) →
    alive_inside_inv (seen ++ rows)
      (fold_left (DemoPOVs.loop_body round_end_df) rows st).
Proof.
  induction rows as [|row rows IH]; intros seen st Hinv Hsorted; simpl.
  - rewrite app_nil_r. exact Hinv.
  - replace (seen ++ row :: rows) with ((seen ++ [row]) ++ rows) in *
      by (rewrite <- app_assoc; reflexivity).
    apply IH; [|exact Hsorted].
    apply loop_body_alive_inside; [exact Hinv|].
    intros row' Hrow'.
    rewrite !map_app in Hsorted.
    apply StronglySorted_app_1_l, StronglySorted_app in Hsorted
      as (Hlt & _ & _).
    apply Hlt; [apply list_elem_of_fmap_2; exact Hrow'|].
    apply list_elem_of_singleton. reflexivity.
Qed.

(** X12: when the player's sample ticks strictly increase, no returned
    range contains a sample that says not alive: every sample of the
    player whose tick lies between the start and the end of a returned
    range says alive. *)
Theorem returned_ranges_hold_alive_samples {F} (parser : DemoParser F)
    (sid : Z) :
  let player_data :=
    DemoPOVs.player_data_of (parse_ticks_alive parser) sid in
  StronglySorted Z.lt (map tr_index player_data) →
  ∃ ranges,
    DemoPOVs.get_player_alive_ranges parser sid = Ok ranges
    ∧ ∀ s e row,
        (s, e) ∈ ranges → row ∈ player_data →
        s ≤ tr_index row → tr_index row ≤ e →
        tr_is_alive row = true.
Proof.
  intros player_data Hsorted.
  destruct (get_player_alive_ranges_Ok parser sid) as (collected & Hc & Hg).
  exists (DemoPOVs.within_max_len collected
            (DemoPOVs.collected_kinds parser sid)).
  split; [exact Hg|].
  unfold DemoPOVs.collected_alive_ranges in Hc. fold player_data in Hc.
  set (round_end_df := parse_event_round_end parser) in *.
  assert (Hinv : alive_inside_inv player_data
                   (DemoPOVs.run_loop round_end_df player_data)).
  { apply (fold_alive_inside round_end_df player_data []); [|exact Hsorted].
    constructor; simpl.
    - discriminate.
    - intros s e row Hin. inversion Hin.
    - intros s e Hin. inversion Hin. }
  destruct Hinv as [Hpending Hranges _].
  intros s e row Hin Hrow Hlo Hhi.
  apply within_max_len_elem in Hin.
  destruct (DemoPOVs.start_tick (DemoPOVs.run_loop round_end_df player_data))
    as [s0|] eqn:Hs.
  - destruct (close_last_open _ _ _ _ _ Hs Hc) as (e0 & -> & _ & _).
    apply elem_of_app in Hin as [Hin|Hin]; [eauto|].
    apply list_elem_of_singleton in Hin. injection Hin as Hs0 He0.
    subst s0 e0. apply (Hpending s row); auto.
  - unfold DemoPOVs.close_last in Hc. rewrite Hs in Hc.
    injection Hc as <-. eauto.
Qed.

Lemma returned_ranges_hold_alive_samples_witness :
  let samples :=
    [(100, true); (200, false); (250, true); (301, true); (302, false)] in
  let parser := Fixture.liveliness_only samples [300; 400] in
  ∃ ranges,
    DemoPOVs.get_player_alive_ranges parser Fixture.steamid = Ok ranges
    ∧ ∀ s e, (s, e) ∈ ranges →
        ¬ (s ≤ 200 ∧ 200 ≤ e) ∧ ¬ (s ≤ 302 ∧ 302 ≤ e).
Proof.
  intros samples parser.
  destruct (returned_ranges_hold_alive_samples parser Fixture.steamid)
    as (ranges & Hget & Hinside).
  - simpl.
    repeat (apply SSorted_cons || apply SSorted_nil
            || apply Forall_cons_2 || apply Forall_nil_2); lia.
  - exists ranges. split; [exact Hget|].
    intros s e Hin. split; intros [Hlo Hhi].
    + assert (Hrow : Fixture.tick_row (200, false)
                     ∈ DemoPOVs.player_data_of (parse_ticks_alive parser)
                         Fixture.steamid)
        by (simpl; right; left).
      specialize (Hinside s e _ Hin Hrow Hlo Hhi). discriminate.
    + assert (Hrow : Fixture.tick_row (302, false)
                     ∈ DemoPOVs.player_data_of (parse_ticks_alive parser)
                         Fixture.steamid)
        by (simpl; do 4 right; left).
      specialize (Hinside s e _ Hin Hrow Hlo Hhi). discriminate.
Defined.

Section Coverage.

Variable round_end_df : list Z.
Hypothesis markers_sorted : StronglySorted Z.lt round_end_df.

Lemma loop_body_covered (seen : list TickRow) (T : Z)
    (st : DemoPOVs.loop_state) (row : TickRow) :
  covered_inv seen st →
  dense_inv round_end_df T st →
  (∀ row', row' ∈ seen → tr_index row' ≤ T) →
  T < tr_index row →
  (∀ m1 m2, m1 ∈ round_end_df → m2 ∈ round_end_df →
            0 < m1 → T ≤ m1 → m1 < m2 → m2 < tr_index row → False) →
  covered_inv (seen ++ [row]) (DemoPOVs.loop_body round_end_df st row).
Proof.
  intros Hcov Hdense Hseen Hlt Hstep.
  destruct (dense_check_round_end round_end_df markers_sorted T
              (tr_index row) st Hdense Hlt Hstep) as [_ Hbefore].
  set (t := tr_index row) in *.
  unfold DemoPOVs.loop_body. fold t.
  set (st1 := DemoPOVs.check_round_end round_end_df t st) in *.
  (* the samples seen before stay covered across the boundary check *)
  assert (Hmid : covered_inv seen st1).
  { subst st1. unfold DemoPOVs.check_round_end.
    destruct (DemoPOVs.round_end_ticks round_end_df
                (DemoPOVs.last_round_end_tick st)) as [|f rest] eqn:Hticks;
      [exact Hcov|].
    destruct (f <? t) eqn:Hcross; [|exact Hcov].
    assert (Hf : f ∈ round_end_df
                 ∧ DemoPOVs.last_round_end_tick st < f).
    { apply round_end_ticks_elem. rewrite Hticks. left. }
    destruct Hdense as [_ Hm _ _]. specialize (Hm f (proj1 Hf) (proj2 Hf)).
    intros row' Hrow' Halive. simpl. left.
    destruct (Hcov row' Hrow' Halive)
      as [(s & e & Hin & Hlo & Hhi)|(s & Hs & Hlo)].
    - exists s, e. split; [|auto].
      destruct (DemoPOVs.start_tick st); [|exact Hin].
      apply elem_of_app. left. exact Hin.
    - rewrite Hs. exists s, f. split; [apply elem_of_app; right; left|].
      specialize (Hseen row' Hrow'). lia. }
  clearbody st1.
  unfold DemoPOVs.check_alive.
  intros row' Hrow' Halive.
  apply elem_of_app in Hrow' as [Hrow'|Hrow'].
  - (* a sample seen before *)
    specialize (Hseen row' Hrow').
    destruct (Hmid row' Hrow' Halive)
      as [(s & e & Hin & Hlo & Hhi)|(s & Hs & Hlo)].
    + left. exists s, e. split; [|auto].
      destruct (tr_is_alive row), (DemoPOVs.start_tick st1); simpl;
        try exact Hin.
      apply elem_of_app. left. exact Hin.
    + rewrite Hs. destruct (tr_is_alive row); simpl.
      * right. exists s. rewrite Hs. auto.
      * left. exists s, (t - 1).
        split; [apply elem_of_app; right; left|]. lia.
  - (* the sample at [t] itself, when it says alive *)
    apply list_elem_of_singleton in Hrow' as ->. rewrite Halive.
    right. destruct (DemoPOVs.start_tick st1) as [s|] eqn:Hs; simpl.
    + exists s. split; [exact Hs|].
      specialize (Hbefore s eq_refl). fold t. lia.
    + exists t. split; [reflexivity|]. fold t. lia.
Qed.

Lemma covered_fold (rows : list TickRow) :
  ∀ (seen : list TickRow) (T : Z) (st : DemoPOVs.loop_state),
    dense_inv round_end_df T st →
    covered_inv seen st →
    (∀ row, row ∈ seen → tr_index row ≤ T) →
    StronglySorted Z.lt (T :: map tr_index rows) →
    one_round_end_per_step round_end_df T (map tr_index rows) →
    let T' := default T (last (map tr_index rows)) in
    let st' := fold_left (DemoPOVs.loop_body round_end_df) rows st in
    dense_inv round_end_df T' st'
    ∧ covered_inv (seen ++ rows) st'
    ∧ (∀ row, row ∈ seen ++ rows → tr_index row ≤ T').
Proof.
  induction rows as [|row rows IH];
    intros seen T st Hdense Hcov Hseen Hsorted Hstep; simpl.
  - rewrite app_nil_r. auto.
  - simpl map in *. rewrite last_default_cons.
    apply StronglySorted_cons in Hsorted as [Hall Hsorted].
    apply Forall_cons in Hall as [Hlt _].
    destruct Hstep as [Hstep Hrest].
    replace (seen ++ row :: rows) with ((seen ++ [row]) ++ rows)
      by (rewrite <- app_assoc; reflexivity).
    apply IH; [| | |exact Hsorted|exact Hrest].
    + apply (dense_loop_body round_end_df markers_sorted T); assumption.
    + apply (loop_body_covered seen T); assumption.
    + intros row' Hrow'. apply elem_of_app in Hrow' as [Hrow'|Hrow'].
      * specialize (Hseen row' Hrow'). lia.
      * apply list_elem_of_singleton in Hrow' as ->. lia.
Qed.

End Coverage.

(** X13: when the player's sample ticks are non-negative and strictly
    increasing, the round-end markers strictly increase, no two positive
    markers lie between one sample and the next (nor before the first),
    and the player's last sample is not past the last marker, every sample
    of the player that says alive lies inside a range the loop collected;
    that range is returned unless its end is 24320 ticks or more after its
    start. *)
Theorem alive_samples_are_covered {F} (parser : DemoParser F) (sid : Z) :
  let round_end_df := parse_event_round_end parser in
  let player_data :=
    DemoPOVs.player_data_of (parse_ticks_alive parser) sid in
  tick_sorted player_data →
  StronglySorted Z.lt round_end_df →
  one_round_end_per_step round_end_df (-1) (map tr_index player_data) →
  (∀ last_marker last_tick,
     last round_end_df = Some last_marker →
     last (map tr_index player_data) = Some last_tick →
     last_tick ≤ last_marker) →
  ∃ collected returned,
    DemoPOVs.collected_alive_ranges parser sid = Ok collected
    ∧ DemoPOVs.get_player_alive_ranges parser sid = Ok returned
    ∧ ∀ row, row ∈ player_data → tr_is_alive row = true →
        ∃ s e, (s, e) ∈ collected
               ∧ s ≤ tr_index row ∧ tr_index row ≤ e
               ∧ (e - s < 24320 → (s, e) ∈ returned).
Proof.
  intros round_end_df player_data Hticks Hmarkers Hdense Hreach.
  destruct (get_player_alive_ranges_Ok parser sid) as (collected & Hc & Hg).
  exists collected,
    (DemoPOVs.within_max_len collected (DemoPOVs.collected_kinds parser sid)).
  split; [exact Hc|]. split; [exact Hg|].
  assert (Hkept : ∀ s e, (s, e) ∈ collected → s ≤ e → e - s < 24320 →
                         (s, e) ∈ DemoPOVs.within_max_len collected
                                    (DemoPOVs.collected_kinds parser sid)).
  { intros s e Hin Hle Hlen. apply within_max_len_keeps.
    - apply collected_kinds_length. exact Hc.
    - exact Hin.
    - lia.
    - rewrite MAX_LEN_value. exact Hlen. }
  unfold DemoPOVs.collected_alive_ranges in Hc.
  fold round_end_df player_data in Hc.
  destruct (covered_fold round_end_df Hmarkers player_data [] (-1)
              DemoPOVs.init_state (dense_init round_end_df))
    as (_ & Hcov & Hbound); try assumption.
  { intros row Hrow. inversion Hrow. }
  { intros row Hrow. inversion Hrow. }
  { apply tick_sorted_from. exact Hticks. }
  simpl in Hcov, Hbound.
  fold (DemoPOVs.run_loop round_end_df player_data) in Hcov.
  set (st := DemoPOVs.run_loop round_end_df player_data) in *.
  intros row Hrow Halive.
  destruct (Hcov row Hrow Halive)
    as [(s & e & Hin & Hlo & Hhi)|(s & Hs & Hlo)].
  - (* covered by a range closed during the pass *)
    exists s, e.
    assert (Hcollected : (s, e) ∈ collected).
    { unfold DemoPOVs.close_last in Hc.
      destruct (DemoPOVs.start_tick st) as [s0|].
      - apply bind_Ok in Hc as (e0 & _ & [= <-]).
        apply elem_of_app. left. exact Hin.
      - injection Hc as <-. exact Hin. }
    split; [exact Hcollected|]. split; [exact Hlo|]. split; [exact Hhi|].
    apply Hkept; [exact Hcollected|lia].
  - (* covered by the range closed after the pass *)
    destruct (close_last_open _ _ _ _ _ Hs Hc) as (e & -> & Hlast & Hnone).
    exists s, e.
    assert (Hcollected : (s, e) ∈ DemoPOVs.alive_ranges st ++ [(s, e)])
      by (apply elem_of_app; right; left).
    assert (Hhi : tr_index row ≤ e).
    { specialize (Hbound row Hrow).
      destruct (last (map tr_index player_data)) as [T|] eqn:HT.
      - simpl in Hbound.
        destruct (decide (round_end_df = [])) as [Hnil|Hne].
        + specialize (Hnone Hnil). injection Hnone as <-. exact Hbound.
        + specialize (Hreach e T (Hlast Hne) eq_refl). lia.
      - apply last_None in HT. destruct player_data; [|discriminate].
        inversion Hrow. }
    split; [exact Hcollected|]. split; [exact Hlo|]. split; [exact Hhi|].
    apply Hkept; [exact Hcollected|lia].
Qed.

Lemma alive_samples_are_covered_witness :
  let samples := [(100, true); (200, true); (301, true); (302, false)] in
  let parser := Fixture.liveliness_only samples [300; 400] in
  ∃ collected s e,
    DemoPOVs.collected_alive_ranges parser Fixture.steamid = Ok collected
    ∧ (s, e) ∈ collected ∧ s ≤ 200 ∧ 200 ≤ e.
Proof.
  intros samples parser.
  assert (Hmarkers : ∀ m1 m2 : Z,
            m1 ∈ [300; 400] → m2 ∈ [300; 400] → m1 < m2 →
            m1 = 300 ∧ m2 = 400).
  { intros m1 m2 H1 H2 Hlt.
    apply elem_of_cons in H1 as [->|H1], H2 as [->|H2];
      try apply list_elem_of_singleton in H1 as ->;
      try apply list_elem_of_singleton in H2 as ->; lia. }
  destruct (alive_samples_are_covered parser Fixture.steamid)
    as (collected & returned & Hc & _ & Hcov).
  - split; simpl.
    + repeat (apply SSorted_cons || apply SSorted_nil
              || apply Forall_cons_2 || apply Forall_nil_2); lia.
    + repeat (apply Forall_cons_2 || apply Forall_nil_2); simpl; lia.
  - simpl.
    repeat (apply SSorted_cons || apply SSorted_nil
            || apply Forall_cons_2 || apply Forall_nil_2); lia.
  - simpl. repeat split;
      intros m1 m2 H1 H2 Hpos Hprev Hlt Hnext;
      destruct (Hmarkers m1 m2 H1 H2 Hlt) as [-> ->]; lia.
  - intros last_marker last_tick [= <-] [= <-]. lia.
  - destruct (Hcov (Fixture.tick_row (200, true)))
      as (s & e & Hin & Hlo & Hhi & _).
    + simpl. right. left.
    + reflexivity.
    + exists collected, s, e. auto.
Defined.

(** ** A demo without round ends *)

Lemma fold_alive_keeps_pending (rows : list TickRow) :
  ∀ (st : DemoPOVs.loop_state) (s : Z),
    DemoPOVs.start_tick st = Some s →
    Forall (λ row, tr_is_alive row = true) rows →
    fold_left (DemoPOVs.loop_body []) rows st = st.
Proof.
  induction rows as [|row rows IH]; intros st s Hs Halive; [reflexivity|].
  apply Forall_cons in Halive as [Hrow Halive]. simpl.
  assert (Hbody : DemoPOVs.loop_body [] st row = st).
  { unfold DemoPOVs.loop_body, DemoPOVs.check_round_end,
      DemoPOVs.check_alive. simpl. rewrite Hrow, Hs. reflexivity. }
  rewrite Hbody. apply (IH st s); assumption.
Qed.

(** X15: with an empty round-end table, a player all of whose samples say
    alive gets one range, from the tick of the first sample to the tick of
    the last sample in table order, provided the 64-bit difference of the
    two ticks is less than 24320; otherwise the extractor returns
    nothing. *)
Theorem always_alive_without_round_ends {F} (parser : DemoParser F)
    (sid : Z) (first : TickRow) (rest : list TickRow) :
  parse_event_round_end parser = [] →
  DemoPOVs.player_data_of (parse_ticks_alive parser) sid = first :: rest →
  Forall (λ row, tr_is_alive row = true) (first :: rest) →
  let first_tick := tr_index first in
  let last_tick := default first_tick (last (map tr_index rest)) in
  DemoPOVs.get_player_alive_ranges parser sid
  = Ok (if int64_wrap (last_tick - first_tick) <? 24320
        then [(first_tick, last_tick)] else []).
Proof.
  intros Hmarkers Hdata Halive first_tick last_tick.
  apply Forall_cons in Halive as [Hfirst Halive].
  set (st := {| DemoPOVs.alive_ranges := [];
                DemoPOVs.end_is_int64 := [];
                DemoPOVs.start_tick := Some first_tick;
                DemoPOVs.last_round_end_tick := 0 |}).
  assert (Hrun : DemoPOVs.run_loop [] (first :: rest) = st).
  { unfold DemoPOVs.run_loop. simpl fold_left.
    assert (Hstep : DemoPOVs.loop_body [] DemoPOVs.init_state first = st).
    { unfold DemoPOVs.loop_body, DemoPOVs.check_round_end,
        DemoPOVs.check_alive. simpl. rewrite Hfirst. reflexivity. }
    rewrite Hstep.
    apply (fold_alive_keeps_pending rest st first_tick eq_refl Halive). }
  assert (Hlast : last (map tr_index (first :: rest)) = Some last_tick).
  { subst last_tick first_tick. simpl map.
    destruct (map tr_index rest) as [|t ticks]; [reflexivity|].
    rewrite last_cons_cons.
    destruct (last (t :: ticks)) eqn:Hl; [reflexivity|].
    apply last_None in Hl. discriminate. }
  unfold DemoPOVs.get_player_alive_ranges, DemoPOVs.collected_alive_ranges,
    DemoPOVs.collected_kinds.
  rewrite Hmarkers, Hdata, Hrun.
  unfold DemoPOVs.close_last, DemoPOVs.close_last_kinds, index_last.
  cbn [DemoPOVs.start_tick DemoPOVs.alive_ranges DemoPOVs.end_is_int64 st].
  rewrite Hlast.
  cbn [bind app]. unfold DemoPOVs.within_max_len.
  cbn [combine List.filter DemoPOVs.end_minus_start].
  rewrite MAX_LEN_value.
  destruct (int64_wrap (last_tick - first_tick) <? 24320); reflexivity.
Qed.

Lemma always_alive_without_round_ends_witness :
  DemoPOVs.get_player_alive_ranges Fixture.three_ticks Fixture.steamid
  = Ok [(10, 12)].
Proof.
  rewrite (always_alive_without_round_ends Fixture.three_ticks
             Fixture.steamid (Fixture.tick_row (10, true))
             [Fixture.tick_row (11, true); Fixture.tick_row (12, true)]).
  - vm_compute. reflexivity.
  - reflexivity.
  - reflexivity.
  - repeat (apply Forall_cons_2 || apply Forall_nil_2); reflexivity.
Defined.
